(** * Rectangle + Random Circles DXF Creator: placement, view transform, export

    A shallow embedding of the core of [main_Version10.py] (class
    [RectangleApp]) and the properties its specification states.

    Numbers.  Python floats are modelled by exact rationals [Q]; integers
    ([IntVar], canvas sizes) by [Z].  Equal rationals are compared with
    [==] ([Qeq]).  [math.hypot(dx, dy) < m] is decided on squares, and is
    related to the real square root in [dist_lt_sqrt].

    Randomness.  [random.random()] is an injected stream [rng : nat -> Q]
    of unit samples read through a counter, so that the number of draws of
    an operation is observable; [random.uniform(a, b)] is
    [a + (b - a) * random()], as in CPython.

    State.  The Tk variables and attributes of [RectangleApp] that the core
    reads or writes form the record [app]; every method is a function on
    [app], and the two placement methods also return the message boxes
    they show and the sample counter. *)

From Stdlib Require Import String.
From Stdlib Require Import QArith Qminmax ZArith List Bool Lia Lra Lqa Psatz.
From Stdlib Require Import Reals Qreals.
From Stdlib Require Import Permutation Sorted.
Import ListNotations.

Open Scope Q_scope.

(** ** Numeric helpers *)

(** Python's [a < b] on floats. *)
Definition Qltb (a b : Q) : bool := negb (Qle_bool b a).

(** Python's [a <= b] on floats. *)
Definition Qleb (a b : Q) : bool := Qle_bool a b.

(** [math.hypot(dx, dy) < m], decided without a square root: the norm is
    never negative, so the test fails when [m <= 0], and otherwise both
    sides are squared. *)
Definition dist_lt (dx dy m : Q) : bool :=
  Qltb 0 m && Qltb (dx * dx + dy * dy) (m * m).

(** [random.uniform(a, b)] on the unit sample [u]. *)
Definition uniform (a b u : Q) : Q := a + (b - a) * u.

(** ** Data model *)

(** [self.rect]: a dict with keys x0_mm, y0_mm, w_mm, h_mm. *)
Record rectangle : Type := mkRect {
  x0_mm : Q;
  y0_mm : Q;
  w_mm : Q;
  h_mm : Q
}.

(** An element of [self.circles]: a dict with keys cx_mm, cy_mm, d_mm. *)
Record circle : Type := mkCircle {
  cx_mm : Q;
  cy_mm : Q;
  d_mm : Q
}.

Definition radius (c : circle) : Q := d_mm c / 2.

Definition CANVAS_MIN_W : Z := 800.
Definition CANVAS_MIN_H : Z := 600.
Definition CANVAS_MARGIN_PX : Z := 24.

(** The attributes of [RectangleApp] used by the core. *)
Record app : Type := mkApp {
  rect : rectangle;
  circles : list circle;
  circle_diam_var : Q;
  circle_count_var : Z;
  circle_min_spacing_var : Q;
  px_per_mm_var : Q;
  auto_fit_var : bool;
  zoom_var : Q;
  layer_var : string;
  color_var : Z;
  canvas_w : Z;
  canvas_h : Z
}.

Definition set_circles (s : app) (cs : list circle) : app :=
  mkApp (rect s) cs (circle_diam_var s) (circle_count_var s)
        (circle_min_spacing_var s) (px_per_mm_var s) (auto_fit_var s)
        (zoom_var s) (layer_var s) (color_var s) (canvas_w s) (canvas_h s).

Definition set_zoom (s : app) (z : Q) : app :=
  mkApp (rect s) (circles s) (circle_diam_var s) (circle_count_var s)
        (circle_min_spacing_var s) (px_per_mm_var s) (auto_fit_var s)
        z (layer_var s) (color_var s) (canvas_w s) (canvas_h s).

Definition set_px_per_mm (s : app) (p : Q) : app :=
  mkApp (rect s) (circles s) (circle_diam_var s) (circle_count_var s)
        (circle_min_spacing_var s) p (auto_fit_var s)
        (zoom_var s) (layer_var s) (color_var s) (canvas_w s) (canvas_h s).

(** The state built by [__init__]. *)
Definition init_app : app :=
  mkApp (mkRect 10 10 800 2000) [] 100 5 20 3 true 1 "0"%string 7
        CANVAS_MIN_W CANVAS_MIN_H.

(** The message boxes a method can show. *)
Inductive message : Type :=
| InvalidInput
| TooLarge
| PlacementLimited (count : Z) (placed : nat)
| MixLimited (old_count placed : nat).

(** ** View transform *)

Definition Zmax1 (z : Z) : Z := Z.max 1 z.

(** [compute_px_per_mm_and_offset]: the effective scale and the offsets
    (the two bounding-box values it also returns are not used by the
    core).  The second component is the state, whose manual scale the
    method resets to 1.0 when it finds it non-positive. *)
Definition compute_px_per_mm_and_offset (s : app) : (Q * Q * Q) * app :=
  let zoom := zoom_var s in
  let x0 := x0_mm (rect s) in
  let y0 := y0_mm (rect s) in
  let w := w_mm (rect s) in
  let h := h_mm (rect s) in
  let min_x := x0 in
  let max_x := x0 + w in
  let min_y := y0 in
  let max_y := y0 + h in
  let width_mm := Qmax (max_x - min_x) (1 # 1000000) in
  let height_mm := Qmax (max_y - min_y) (1 # 1000000) in
  if auto_fit_var s then
    let avail_w := Zmax1 (canvas_w s - 2 * CANVAS_MARGIN_PX) in
    let avail_h := Zmax1 (canvas_h s - 2 * CANVAS_MARGIN_PX) in
    let base_px_per_mm_x := inject_Z avail_w / width_mm in
    let base_px_per_mm_y := inject_Z avail_h / height_mm in
    let base_px_per_mm := Qmin base_px_per_mm_x base_px_per_mm_y in
    let base_px_per_mm := if Qleb base_px_per_mm 0 then 1 else base_px_per_mm in
    let effective_px_per_mm := base_px_per_mm * zoom in
    let x_offset_px := inject_Z CANVAS_MARGIN_PX - min_x * effective_px_per_mm in
    let y_offset_px := inject_Z CANVAS_MARGIN_PX - min_y * effective_px_per_mm in
    ((effective_px_per_mm, x_offset_px, y_offset_px), s)
  else
    if Qleb (px_per_mm_var s) 0 then
      ((1 * zoom, 0, 0), set_px_per_mm s 1)
    else
      ((px_per_mm_var s * zoom, 0, 0), s).

(** [mm_to_canvas_px]. *)
Definition mm_to_canvas_px (x_mm y_mm px_per_mm x_offset_px y_offset_px : Q) : Q * Q :=
  (x_mm * px_per_mm + x_offset_px, y_mm * px_per_mm + y_offset_px).

(** [redraw]: its only effect on [app] is the one of
    [compute_px_per_mm_and_offset]; painting is outside the core. *)
Definition redraw (s : app) : app := snd (compute_px_per_mm_and_offset s).

(** ** Zoom *)

Definition zoom_in (s : app) : app :=
  let cur := zoom_var s in
  let cur := cur * (12 # 10) in
  redraw (set_zoom s (Qmin cur 10)).

Definition zoom_out (s : app) : app :=
  let cur := zoom_var s in
  let cur := cur / (12 # 10) in
  redraw (set_zoom s (Qmax cur (5 # 100))).

Definition zoom_reset (s : app) : app := redraw (set_zoom s 1).

(** ** Placement engine *)

(** The body of the inner [for c in ...] loops: [dist < min_allowed]. *)
Definition too_close (cx cy r min_space : Q) (c : circle) : bool :=
  let dist_dx := cx - cx_mm c in
  let dist_dy := cy - cy_mm c in
  let min_allowed := r + (d_mm c / 2) + min_space in
  dist_lt dist_dx dist_dy min_allowed.

(** An inner [for c in cs] loop: the value of [ok] when it ends, [False]
    at the first circle that is too close. *)
Fixpoint check_ok (cx cy r min_space : Q) (cs : list circle) : bool :=
  match cs with
  | [] => true
  | c :: cs' => if too_close cx cy r min_space c then false
                else check_ok cx cy r min_space cs'
  end.

(** The feasibility test shared by both operations. *)
Definition no_room (R : rectangle) (r min_space : Q) : bool :=
  Qleb (w_mm R) (2 * (r + min_space)) || Qleb (h_mm R) (2 * (r + min_space)).

(** [diameters.sort(reverse=True)]: a stable sort into descending order,
    here by insertion from the right. *)
Fixpoint insert_desc (x : Q) (l : list Q) : list Q :=
  match l with
  | [] => [x]
  | y :: l' => if Qleb y x then x :: y :: l' else y :: insert_desc x l'
  end.

Fixpoint sort_desc (l : list Q) : list Q :=
  match l with
  | [] => []
  | x :: l' => insert_desc x (sort_desc l')
  end.

Section Placement.

(** The stream of values of [random.random()]; the counter threaded
    through the functions below is the number of values read so far. *)
Variable rng : nat -> Q.

(** The two [random.uniform] calls of one attempt, reading samples [i]
    and [i + 1]. *)
Definition draw_cx (R : rectangle) (r min_space : Q) (i : nat) : Q :=
  uniform (x0_mm R + r + min_space) (x0_mm R + w_mm R - r - min_space) (rng i).

Definition draw_cy (R : rectangle) (r min_space : Q) (i : nat) : Q :=
  uniform (y0_mm R + r + min_space) (y0_mm R + h_mm R - r - min_space) (rng (S i)).

(** The [while attempts < max_attempts_per_circle and not placed_this]
    loop of [add_random_circles]; [fuel] is the number of attempts left.
    Returns the circle appended to [new_circles], if any, and the
    counter. *)
Fixpoint add_attempts (fuel : nat) (R : rectangle) (diam r min_space : Q)
    (existing new_circles : list circle) (i : nat) : option circle * nat :=
  match fuel with
  | O => (None, i)
  | S fuel' =>
      let cx := draw_cx R r min_space i in
      let cy := draw_cy R r min_space i in
      if negb (check_ok cx cy r min_space existing) then
        add_attempts fuel' R diam r min_space existing new_circles (2 + i)
      else if check_ok cx cy r min_space new_circles then
        (Some (mkCircle cx cy diam), (2 + i)%nat)
      else
        add_attempts fuel' R diam r min_space existing new_circles (2 + i)
  end.

(** The [for i in range(count)] loop of [add_random_circles], with its
    [break] when a circle could not be placed; [n] is the number of
    iterations left.  Returns [new_circles], [placed] and the counter. *)
Fixpoint add_loop (n : nat) (R : rectangle) (diam r min_space : Q)
    (existing new_circles : list circle) (placed : nat) (i : nat)
    : list circle * nat * nat :=
  match n with
  | O => (new_circles, placed, i)
  | S n' =>
      match add_attempts 600 R diam r min_space existing new_circles i with
      | (Some c, i') =>
          add_loop n' R diam r min_space existing (new_circles ++ [c]) (S placed) i'
      | (None, i') => (new_circles, placed, i')
      end
  end.

(** [add_random_circles] started with the counter at [i]: the new state,
    the message boxes shown and the counter. *)
Definition add_random_circles (s : app) (i : nat) : app * list message * nat :=
  let diam := circle_diam_var s in
  let count := circle_count_var s in
  let min_space := circle_min_spacing_var s in
  if Qleb diam 0 || (count <=? 0)%Z || Qltb min_space 0 then
    (s, [InvalidInput], i)
  else
    let r := diam / 2 in
    if no_room (rect s) r min_space then
      (s, [TooLarge], i)
    else
      let '(new_circles, placed, i') :=
        add_loop (Z.to_nat count) (rect s) diam r min_space (circles s) [] 0 i in
      let s' := redraw (set_circles s (circles s ++ new_circles)) in
      (s',
       if (Z.of_nat placed <? count)%Z then [PlacementLimited count placed] else [],
       i').

(** The [while] loop of [mix_circles]. *)
Fixpoint mix_attempts (fuel : nat) (R : rectangle) (diam r min_space : Q)
    (new_circles : list circle) (i : nat) : option circle * nat :=
  match fuel with
  | O => (None, i)
  | S fuel' =>
      let cx := draw_cx R r min_space i in
      let cy := draw_cy R r min_space i in
      if check_ok cx cy r min_space new_circles then
        (Some (mkCircle cx cy diam), (2 + i)%nat)
      else
        mix_attempts fuel' R diam r min_space new_circles (2 + i)
  end.

(** The [for diam in diameters] loop of [mix_circles]: an infeasible
    diameter is skipped by [continue], an exhausted one by falling
    through. *)
Fixpoint mix_loop (diameters : list Q) (R : rectangle) (min_space : Q)
    (new_circles : list circle) (placed : nat) (i : nat)
    : list circle * nat * nat :=
  match diameters with
  | [] => (new_circles, placed, i)
  | diam :: ds =>
      let r := diam / 2 in
      if no_room R r min_space then
        mix_loop ds R min_space new_circles placed i
      else
        match mix_attempts 800 R diam r min_space new_circles i with
        | (Some c, i') => mix_loop ds R min_space (new_circles ++ [c]) (S placed) i'
        | (None, i') => mix_loop ds R min_space new_circles placed i'
        end
  end.

(** [mix_circles] started with the counter at [i]. *)
Definition mix_circles (s : app) (i : nat) : app * list message * nat :=
  match circles s with
  | [] => (s, [], i)
  | _ :: _ =>
      let diameters := sort_desc (map d_mm (circles s)) in
      let min_space := circle_min_spacing_var s in
      let '(new_circles, placed, i') :=
        mix_loop diameters (rect s) min_space [] 0 i in
      let old_count := length (circles s) in
      let s' := redraw (set_circles s new_circles) in
      (s',
       if (placed <? old_count)%nat then [MixLimited old_count placed] else [],
       i')
  end.

End Placement.

(** ** DXF export *)

(** What [save_dxf] hands to the modelspace of the document. *)
Inductive entity : Type :=
| LwPolyline (pts : list (Q * Q)) (close : bool) (layer : string) (color : Z)
| Circle (center : Q * Q) (r : Q) (layer : string) (color : Z).

(** [canvas_h_mm]: the canvas height over the effective scale; the
    [except] branch is taken on a division by zero. *)
Definition canvas_h_mm_of (canvas_h : Z) (effective_px_per_mm : Q) : Q :=
  if Qeq_bool effective_px_per_mm 0 then inject_Z canvas_h
  else inject_Z canvas_h / effective_px_per_mm.

Definition flip_point (canvas_h_mm : Q) (p : Q * Q) : Q * Q :=
  (fst p, canvas_h_mm - snd p).

Definition dxf_circle (canvas_h_mm : Q) (layer_name : string) (color : Z)
    (c : circle) : entity :=
  let cx := cx_mm c in
  let cy := cy_mm c in
  let r := d_mm c / 2 in
  Circle (cx, canvas_h_mm - cy) r layer_name color.

(** The entities added by [save_dxf] for a given [canvas_h_mm]. *)
Definition dxf_entities (R : rectangle) (cs : list circle) (canvas_h_mm : Q)
    (layer_name : string) (color : Z) : list entity :=
  let x0 := x0_mm R in
  let y0 := y0_mm R in
  let w := w_mm R in
  let h := h_mm R in
  let p1 := (x0, y0) in
  let p2 := (x0 + w, y0) in
  let p3 := (x0 + w, y0 + h) in
  let p4 := (x0, y0 + h) in
  let pts_model := [p1; p2; p3; p4] in
  let pts_dxf := map (flip_point canvas_h_mm) pts_model in
  LwPolyline pts_dxf true layer_name color
    :: map (dxf_circle canvas_h_mm layer_name color) cs.

(** [save_dxf] on its successful path, for the path chosen in the file
    dialog ([None] when the dialog is cancelled): the state and the
    entities written.  [save_dxf_sink] adds the ways the sink can
    fail. *)
Definition save_dxf (s : app) (path : option string) : app * option (list entity) :=
  match path with
  | None => (s, None)
  | Some _ =>
      let layer_name := if String.eqb (layer_var s) "" then "0"%string else layer_var s in
      let color := if (color_var s =? 0)%Z then 7%Z else color_var s in
      let '((effective_px_per_mm, _, _), s') := compute_px_per_mm_and_offset s in
      let canvas_h_mm := canvas_h_mm_of (canvas_h s') effective_px_per_mm in
      (s', Some (dxf_entities (rect s') (circles s') canvas_h_mm layer_name color))
  end.

(** ** Vocabulary of the specification *)

(** The Euclidean norm [math.hypot] computes. *)
Definition hypot (dx dy : Q) : R :=
  sqrt (Q2R dx * Q2R dx + Q2R dy * Q2R dy).

(** Distance between the centres of two circles. *)
Definition distance (a b : circle) : R :=
  hypot (cx_mm a - cx_mm b) (cy_mm a - cy_mm b).

(** The spacing rule for a pair of circles. *)
Definition separated (min_space : Q) (a b : circle) : Prop :=
  (distance a b >= Q2R (radius a + radius b + min_space))%R.

(** The spacing rule for every pair of a collection. *)
Definition all_separated (min_space : Q) (cs : list circle) : Prop :=
  ForallOrdPairs (separated min_space) cs.

(** A decision procedure for [separated]. *)
Definition separatedb (min_space : Q) (a b : circle) : bool :=
  negb (dist_lt (cx_mm a - cx_mm b) (cy_mm a - cy_mm b)
                (radius a + radius b + min_space)).

Fixpoint all_separatedb (min_space : Q) (cs : list circle) : bool :=
  match cs with
  | [] => true
  | c :: cs' => forallb (separatedb min_space c) cs' && all_separatedb min_space cs'
  end.

Section SlotVocabulary.

Variable rng : nat -> Q.

(** The candidate circle drawn by the attempt that starts at counter [i]. *)
Definition candidate (R : rectangle) (diam r ms : Q) (i : nat) : circle :=
  mkCircle (draw_cx rng R r ms i) (draw_cy rng R r ms i) diam.

(** Whether that candidate passes the spacing test against [others]. *)
Definition accepted (R : rectangle) (r ms : Q) (others : list circle) (i : nat) : bool :=
  check_ok (draw_cx rng R r ms i) (draw_cy rng R r ms i) r ms others.

(** A slot succeeds at its attempt number [k] (counted from 0): the
    budget is not used up, the [k] earlier candidates were rejected, and
    this one is accepted. *)
Definition slot_hit (budget : nat) (R : rectangle) (r ms : Q)
    (others : list circle) (i k : nat) : Prop :=
  (k < budget)%nat /\
  (forall j, (j < k)%nat -> accepted R r ms others (i + 2 * j) = false) /\
  accepted R r ms others (i + 2 * k) = true.

(** A slot uses up its budget: every candidate is rejected. *)
Definition slot_exhausted (budget : nat) (R : rectangle) (r ms : Q)
    (others : list circle) (i : nat) : Prop :=
  forall j, (j < budget)%nat -> accepted R r ms others (i + 2 * j) = false.

(** The policy of [add_random_circles], slot by slot:
    [place_policy R diam ms existing n new i final i'] says that, with [n]
    slots left, [new] placed and the counter at [i], the pass ends with
    [final] placed and the counter at [i'].  A slot keeps its first
    accepted candidate; a slot whose 600 candidates are all rejected ends
    the pass. *)
Inductive place_policy (R : rectangle) (diam ms : Q) (existing : list circle)
  : nat -> list circle -> nat -> list circle -> nat -> Prop :=
| pp_done new i :
    place_policy R diam ms existing 0 new i new i
| pp_hit n new i k final i' :
    slot_hit 600 R (diam / 2) ms (existing ++ new) i k ->
    place_policy R diam ms existing n
      (new ++ [candidate R diam (diam / 2) ms (i + 2 * k)]) (i + 2 * k + 2)
      final i' ->
    place_policy R diam ms existing (S n) new i final i'
| pp_stop n new i :
    slot_exhausted 600 R (diam / 2) ms (existing ++ new) i ->
    place_policy R diam ms existing (S n) new i new (i + 2 * 600).

(** The circles placed in a pass keep the rule among themselves and
    towards every pre-existing circle, whatever the latter look like. *)
Definition spaced_from (ms : Q) (existing new : list circle) : Prop :=
  all_separated ms new /\
  forall a b, In a new -> In b existing -> separated ms a b /\ separated ms b a.

(** The policy of [mix_circles], diameter by diameter: an infeasible
    diameter is skipped without a draw, a diameter whose 800 candidates
    are all rejected is dropped, and in both cases the pass goes on with
    the remaining diameters. *)
Inductive mix_policy (R : rectangle) (ms : Q)
  : list Q -> list circle -> nat -> list circle -> nat -> Prop :=
| mp_done new i :
    mix_policy R ms [] new i new i
| mp_infeasible d ds new i final i' :
    no_room R (d / 2) ms = true ->
    mix_policy R ms ds new i final i' ->
    mix_policy R ms (d :: ds) new i final i'
| mp_hit d ds new i k final i' :
    no_room R (d / 2) ms = false ->
    slot_hit 800 R (d / 2) ms new i k ->
    mix_policy R ms ds
      (new ++ [candidate R d (d / 2) ms (i + 2 * k)]) (i + 2 * k + 2)
      final i' ->
    mix_policy R ms (d :: ds) new i final i'
| mp_exhausted d ds new i final i' :
    no_room R (d / 2) ms = false ->
    slot_exhausted 800 R (d / 2) ms new i ->
    mix_policy R ms ds new (i + 2 * 800) final i' ->
    mix_policy R ms (d :: ds) new i final i'.

End SlotVocabulary.

(** [subseq l1 l2]: [l1] is [l2] with some elements dropped, order kept. *)
Inductive subseq {A : Type} : list A -> list A -> Prop :=
| subseq_nil : subseq [] []
| subseq_drop x l1 l2 : subseq l1 l2 -> subseq l1 (x :: l2)
| subseq_keep x l1 l2 : subseq l1 l2 -> subseq (x :: l1) (x :: l2).

(** Descending order: every element is at least each later one. *)
Definition descending (l : list Q) : Prop :=
  StronglySorted (fun a b => b <= a) l.

(** The closed box of admissible centres for a circle. *)
Definition in_box (R : rectangle) (ms : Q) (c : circle) : Prop :=
  x0_mm R + radius c + ms <= cx_mm c /\
  cx_mm c <= x0_mm R + w_mm R - radius c - ms /\
  y0_mm R + radius c + ms <= cy_mm c /\
  cy_mm c <= y0_mm R + h_mm R - radius c - ms.


Definition in_boxb (R : rectangle) (ms : Q) (c : circle) : bool :=
  Qleb (x0_mm R + radius c + ms) (cx_mm c) &&
  Qleb (cx_mm c) (x0_mm R + w_mm R - radius c - ms) &&
  Qleb (y0_mm R + radius c + ms) (cy_mm c) &&
  Qleb (cy_mm c) (y0_mm R + h_mm R - radius c - ms).

(** The request read by [add_random_circles] passes its validation. *)
Definition valid_request (s : app) : Prop :=
  0 < circle_diam_var s /\ (0 < circle_count_var s)%Z /\
  0 <= circle_min_spacing_var s.

(** The requested diameter leaves room inside the rectangle. *)
Definition feasible (s : app) : Prop :=
  2 * (circle_diam_var s / 2 + circle_min_spacing_var s) < w_mm (rect s) /\
  2 * (circle_diam_var s / 2 + circle_min_spacing_var s) < h_mm (rect s).

(** The message shown, if any, after [add_random_circles] placed [placed]
    circles out of [count]. *)
Definition placement_notice (count : Z) (placed : nat) : list message :=
  if (Z.of_nat placed <? count)%Z then [PlacementLimited count placed] else [].

(** The message shown, if any, after [mix_circles] placed [placed] circles
    out of [old_count]. *)
Definition mix_notice (old_count placed : nat) : list message :=
  if (placed <? old_count)%nat then [MixLimited old_count placed] else [].

(** The state component of what an operation returns. *)
Definition state_after (res : app * list message * nat) : app := fst (fst res).

(** The user typing a new request into the three circle entries. *)
Definition set_request (s : app) (diam : Q) (count : Z) (min_space : Q) : app :=
  mkApp (rect s) (circles s) diam count min_space (px_per_mm_var s)
        (auto_fit_var s) (zoom_var s) (layer_var s) (color_var s)
        (canvas_w s) (canvas_h s).

(** ** Vocabulary of the view and export claims *)

(** The zoom buttons. *)
Inductive zoom_op : Type := ZoomIn | ZoomOut | ZoomReset.

Definition run_zoom_op (s : app) (op : zoom_op) : app :=
  match op with
  | ZoomIn => zoom_in s
  | ZoomOut => zoom_out s
  | ZoomReset => zoom_reset s
  end.

(** Pressing the buttons of [ops] one after the other. *)
Definition run_zoom_ops (ops : list zoom_op) (s : app) : app :=
  fold_left run_zoom_op ops s.

Definition in_zoom_range (z : Q) : Prop := (5 # 100) <= z /\ z <= 10.

(** Clamping to [0.05, 10.0]. *)
Definition clamp_zoom (z : Q) : Q := Qmax (5 # 100) (Qmin z 10).

(** The base scale of the auto-fit mode for rectangle extents [w] and [h]:
    the smaller ratio of usable surface to extent, 1.0 if that is not
    positive. *)
Definition fit_base (surface_w surface_h margin : Z) (w h : Q) : Q :=
  let usable_w := Z.max 1 (surface_w - 2 * margin) in
  let usable_h := Z.max 1 (surface_h - 2 * margin) in
  let base := Qmin (inject_Z usable_w / w) (inject_Z usable_h / h) in
  if Qleb base 0 then 1 else base.

(** The three numbers [compute_px_per_mm_and_offset] returns. *)
Definition scale_of (s : app) : Q := fst (fst (fst (compute_px_per_mm_and_offset s))).
Definition x_offset_of (s : app) : Q := snd (fst (fst (compute_px_per_mm_and_offset s))).
Definition y_offset_of (s : app) : Q := snd (fst (compute_px_per_mm_and_offset s)).

(** The user resizing the window, as [on_canvas_configure] records it. *)
Definition set_canvas (s : app) (width height : Z) : app :=
  mkApp (rect s) (circles s) (circle_diam_var s) (circle_count_var s)
        (circle_min_spacing_var s) (px_per_mm_var s) (auto_fit_var s)
        (zoom_var s) (layer_var s) (color_var s) (Z.max 1 width) (Z.max 1 height).

(** The user replacing the rectangle, as [on_update_shape] stores it. *)
Definition set_rect (s : app) (R : rectangle) : app :=
  mkApp R (circles s) (circle_diam_var s) (circle_count_var s)
        (circle_min_spacing_var s) (px_per_mm_var s) (auto_fit_var s)
        (zoom_var s) (layer_var s) (color_var s) (canvas_w s) (canvas_h s).

(** The user switching to the manual scale [p]. *)
Definition set_manual (s : app) (p : Q) : app :=
  mkApp (rect s) (circles s) (circle_diam_var s) (circle_count_var s)
        (circle_min_spacing_var s) p false
        (zoom_var s) (layer_var s) (color_var s) (canvas_w s) (canvas_h s).

(** The layer name and colour [save_dxf] uses. *)
Definition layer_name_of (s : app) : string :=
  if String.eqb (layer_var s) "" then "0"%string else layer_var s.

Definition color_of (s : app) : Z :=
  if (color_var s =? 0)%Z then 7%Z else color_var s.

(** ** Scenarios *)

(** A 100 mm rectangle cannot take a 100 mm circle with 20 mm spacing. *)
Definition gate_app : app :=
  mkApp (mkRect 10 10 100 2000) [mkCircle 40 40 10] 100 5 20 3 true 1 "0"%string 7
        CANVAS_MIN_W CANVAS_MIN_H.

(** One circle is there already; two more are requested and the stream
    offers two far-apart centres. *)
Definition keep_app : app :=
  mkApp (mkRect 10 10 800 2000) [mkCircle 100 100 100] 100 2 20 3 true 1 "0"%string 7
        CANVAS_MIN_W CANVAS_MIN_H.

Definition keep_rng (n : nat) : Q := nth n [1 # 2; 1 # 4; 1 # 2; 3 # 4] 0.

(** The samples of two calls in a row: centres (60, 60) and (160, 60)
    for the first, (410, 1010) for the second. *)
Definition crowd_rng (n : nat) : Q := nth n [0; 0; 1 # 7; 0; 1 # 2; 1 # 2] 0.

(** Two circles of 100 mm placed from the initial state with spacing 0. *)
Definition crowd_app : app :=
  state_after (add_random_circles crowd_rng (set_request init_app 100 2 0) 0).

(** Four circles, one of them too large for the rectangle it now lies
    in. *)
Definition skip_app : app :=
  mkApp (mkRect 10 10 800 2000)
        [mkCircle 100 100 100; mkCircle 300 300 60; mkCircle 0 0 5000;
         mkCircle 500 500 200]
        100 5 20 3 true 1 "0"%string 7 CANVAS_MIN_W CANVAS_MIN_H.

(** Samples 1/2 for the first 1602 reads, 0 afterwards. *)
Definition skip_rng (n : nat) : Q := if (n <? 1602)%nat then 1 # 2 else 0.

(** A rectangle of a tenth of a micrometre in the 848 x 648 window. *)
Definition tiny_app : app :=
  set_canvas (set_rect init_app (mkRect 10 10 (1 # 10000000) (1 # 10000000))) 848 648.

(** The default rectangle with one circle, shown at 1 px/mm on a canvas
    2020 px high. *)
Definition export_app : app :=
  set_canvas
    (set_manual (set_circles init_app [mkCircle 100 100 100]) 1) 848 2020.

(** ** The remaining handlers *)

(** [clear_circles]. *)
Definition clear_circles (s : app) : app := redraw (set_circles s []).

(** [on_canvas_configure] for an event of the given size. *)
Definition on_canvas_configure (s : app) (width height : Z) : app :=
  redraw (set_canvas s width height).

(** [on_fit_toggle]: enabling or disabling the entry is widget state; the
    state changes through [redraw] only. *)
Definition on_fit_toggle (s : app) : app := redraw s.

(** [on_update_shape] for the contents [x0], [y0], [w], [h] of the four
    rectangle entries. *)
Definition on_update_shape (s : app) (x0 y0 w h : Q) : app * list message :=
  if Qleb w 0 || Qleb h 0 then (s, [InvalidInput])
  else (redraw (set_rect s (mkRect x0 y0 w h)), []).

(** [reset_default]: the variables are set to their defaults, then the
    three handlers run; [on_update_shape] reads the rectangle entries just
    set. *)
Definition reset_default (s : app) : app :=
  let s1 := mkApp (rect s) (circles s) 100 5 20 3 true 1
                  (layer_var s) (color_var s) (canvas_w s) (canvas_h s) in
  let s2 := on_fit_toggle s1 in
  let s3 := fst (on_update_shape s2 10 10 800 2000) in
  clear_circles s3.

(** ** What [redraw] paints *)

(** [px_per_mm_f]: the scale [redraw] paints with. *)
Definition redraw_px_per_mm (s : app) : Q :=
  let px_per_mm := scale_of s in
  if Qleb px_per_mm 0 then 1 else px_per_mm.

(** [pts_px]: the corners of the rectangle on the canvas. *)
Definition redraw_polygon (s : app) : list (Q * Q) :=
  let x0 := x0_mm (rect s) in
  let y0 := y0_mm (rect s) in
  let w := w_mm (rect s) in
  let h := h_mm (rect s) in
  let p1 := (x0, y0) in
  let p2 := (x0 + w, y0) in
  let p3 := (x0 + w, y0 + h) in
  let p4 := (x0, y0 + h) in
  map (fun p => mm_to_canvas_px (fst p) (snd p) (redraw_px_per_mm s)
                  (x_offset_of s) (y_offset_of s))
      [p1; p2; p3; p4].

(** The bounding box handed to [create_oval] for one circle: left, top,
    right, bottom. *)
Definition redraw_oval (s : app) (c : circle) : Q * Q * Q * Q :=
  let r_mm := d_mm c / 2 in
  let '(cx_px, cy_px) :=
    mm_to_canvas_px (cx_mm c) (cy_mm c) (redraw_px_per_mm s)
      (x_offset_of s) (y_offset_of s) in
  let r_px := r_mm * redraw_px_per_mm s in
  (cx_px - r_px, cy_px - r_px, cx_px + r_px, cy_px + r_px).

(** [mm_val]: the millimetre value [redraw] prints beside the grid line
    at canvas position [x]. *)
Definition grid_mm_val (x off px_per_mm_f : Q) : Q := (x - off) / px_per_mm_f.

(** ** Saving with a sink that can fail *)

(** The calls into ezdxf that can raise inside the [try] of [save_dxf]:
    making the layer, before the transform is computed, and adding the
    entities and writing the file, after it. *)
Record dxf_sink : Type := mkSink {
  layer_accepted : string -> Z -> bool;
  write_accepted : string -> list entity -> bool
}.

(** How [save_dxf] ends: without a path, with the "Save error" box, or
    with the "Saved" box and the document written to the path. *)
Inductive save_outcome : Type :=
| SaveCancelled
| SaveError
| Saved (path : string) (doc : list entity).

(** [save_dxf] for the string the file dialog returns (empty when it is
    cancelled) and a sink that may refuse the layer or the write.  The
    rectangle is read before the dialog; the state changes only through
    [compute_px_per_mm_and_offset], which runs once the layer is made. *)
Definition save_dxf_sink (sink : dxf_sink) (s : app) (path : string)
    : app * save_outcome :=
  let R := rect s in
  if String.eqb path "" then (s, SaveCancelled)
  else
    let layer_name := if String.eqb (layer_var s) "" then "0"%string else layer_var s in
    let color := if (color_var s =? 0)%Z then 7%Z else color_var s in
    if negb (layer_accepted sink layer_name color) then (s, SaveError)
    else
      let '((effective_px_per_mm, _, _), s') := compute_px_per_mm_and_offset s in
      let canvas_h_mm := canvas_h_mm_of (canvas_h s') effective_px_per_mm in
      let doc := dxf_entities R (circles s') canvas_h_mm layer_name color in
      if write_accepted sink path doc then (s', Saved path doc)
      else (s', SaveError).

(** A sink that accepts everything, and one that refuses every layer. *)
Definition willing_sink : dxf_sink := mkSink (fun _ _ => true) (fun _ _ => true).
Definition layerless_sink : dxf_sink := mkSink (fun _ _ => false) (fun _ _ => true).

(** ** The application as a machine *)

(** The user typing into the layer and colour entries. *)
Definition set_export (s : app) (layer : string) (color : Z) : app :=
  mkApp (rect s) (circles s) (circle_diam_var s) (circle_count_var s)
        (circle_min_spacing_var s) (px_per_mm_var s) (auto_fit_var s)
        (zoom_var s) layer color (canvas_w s) (canvas_h s).

(** The auto-fit checkbox. *)
Definition set_auto_fit (s : app) (b : bool) : app :=
  mkApp (rect s) (circles s) (circle_diam_var s) (circle_count_var s)
        (circle_min_spacing_var s) (px_per_mm_var s) b
        (zoom_var s) (layer_var s) (color_var s) (canvas_w s) (canvas_h s).

(** What the user and the window system can do. *)
Inductive event : Type :=
| EvZoom (op : zoom_op)
| EvAddCircles
| EvMixCircles
| EvClearCircles
| EvUpdateShape (x0 y0 w h : Q)
| EvResetDefault
| EvConfigure (width height : Z)
| EvFitCheckbox
| EvEditRequest (diam : Q) (count : Z) (min_space : Q)
| EvEditManualScale (p : Q)
| EvEditExport (layer : string) (color : Z)
| EvSave (path : option string).

(** One event on the state and the sample counter. *)
Definition handle (rng : nat -> Q) (st : app * nat) (e : event) : app * nat :=
  let '(s, i) := st in
  match e with
  | EvZoom op => (run_zoom_op s op, i)
  | EvAddCircles =>
      let '(s', _, i') := add_random_circles rng s i in (s', i')
  | EvMixCircles =>
      let '(s', _, i') := mix_circles rng s i in (s', i')
  | EvClearCircles => (clear_circles s, i)
  | EvUpdateShape x0 y0 w h => (fst (on_update_shape s x0 y0 w h), i)
  | EvResetDefault => (reset_default s, i)
  | EvConfigure width height => (on_canvas_configure s width height, i)
  | EvFitCheckbox => (on_fit_toggle (set_auto_fit s (negb (auto_fit_var s))), i)
  | EvEditRequest diam count min_space => (set_request s diam count min_space, i)
  | EvEditManualScale p => (set_px_per_mm s p, i)
  | EvEditExport layer color => (set_export s layer color, i)
  | EvSave path => (fst (save_dxf s path), i)
  end.

Definition run_events (rng : nat -> Q) (es : list event) (st : app * nat) : app * nat :=
  fold_left (handle rng) es st.

(** What every reachable state satisfies. *)
Definition app_inv (s : app) : Prop :=
  0 < w_mm (rect s) /\ 0 < h_mm (rect s) /\
  in_zoom_range (zoom_var s) /\
  (1 <= canvas_w s)%Z /\ (1 <= canvas_h s)%Z /\
  Forall (fun c => 0 < d_mm c) (circles s).



(** A series of requests typed and run one after the other. *)
Fixpoint add_requests (rng : nat -> Q) (reqs : list (Q * Z * Q)) (s : app) (i : nat)
    : app * nat :=
  match reqs with
  | [] => (s, i)
  | (diam, count, min_space) :: reqs' =>
      let '(s', _, i') := add_random_circles rng (set_request s diam count min_space) i in
      add_requests rng reqs' s' i'
  end.

(** * Properties *)

(** ** Comparisons and the Euclidean distance *)

Lemma Qltb_lt (a b : Q) : Qltb a b = true <-> a < b.
Proof.
  unfold Qltb. rewrite negb_true_iff.
  split; intro H.
  - apply Qnot_le_lt. intro Hle. apply Qle_bool_iff in Hle. congruence.
  - destruct (Qle_bool b a) eqn:E; [|reflexivity].
    apply Qle_bool_iff in E. exfalso. apply (Qlt_not_le _ _ H E).
Qed.

Lemma Qltb_ge (a b : Q) : Qltb a b = false <-> b <= a.
Proof.
  unfold Qltb. rewrite negb_false_iff. apply Qle_bool_iff.
Qed.

Lemma Qleb_le (a b : Q) : Qleb a b = true <-> a <= b.
Proof. apply Qle_bool_iff. Qed.

Lemma Qleb_gt (a b : Q) : Qleb a b = false <-> b < a.
Proof.
  unfold Qleb. split; intro H.
  - apply Qnot_le_lt. intro Hle. apply Qle_bool_iff in Hle. congruence.
  - destruct (Qle_bool a b) eqn:E; [|reflexivity].
    apply Qle_bool_iff in E. exfalso. apply (Qlt_not_le _ _ H E).
Qed.

(** [dist_lt] decides [math.hypot(dx, dy) < m]. *)
Lemma dist_lt_sqrt (dx dy m : Q) :
  dist_lt dx dy m = true <-> (hypot dx dy < Q2R m)%R.
Proof.
  unfold dist_lt, hypot. rewrite andb_true_iff, !Qltb_lt.
  set (X := Q2R dx). set (Y := Q2R dy).
  assert (Hsq : (0 <= X * X + Y * Y)%R) by nra.
  split.
  - intros [Hm Hlt].
    apply Qlt_Rlt in Hm, Hlt.
    rewrite Q2R_plus, !Q2R_mult in Hlt. fold X Y in Hlt.
    change (Q2R 0) with (0 * / 1)%R in Hm.
    assert (Hm' : (0 < Q2R m)%R) by lra.
    rewrite <- (sqrt_square (Q2R m)) by lra.
    apply sqrt_lt_1_alt. lra.
  - intro H.
    pose proof (sqrt_pos (X * X + Y * Y)) as Hpos.
    assert (Hm : (0 < Q2R m)%R) by lra.
    split.
    + apply Rlt_Qlt. change (Q2R 0) with (0 * / 1)%R. lra.
    + apply Rlt_Qlt. rewrite Q2R_plus, !Q2R_mult. fold X Y.
      rewrite <- (sqrt_sqrt (X * X + Y * Y)) by exact Hsq.
      nra.
Qed.

Lemma separatedb_iff (ms : Q) (a b : circle) :
  separatedb ms a b = true <-> separated ms a b.
Proof.
  unfold separatedb, separated, distance.
  rewrite negb_true_iff.
  pose proof (dist_lt_sqrt (cx_mm a - cx_mm b) (cy_mm a - cy_mm b)
                (radius a + radius b + ms)) as H.
  destruct (dist_lt _ _ _).
  - split; [discriminate|]. intro Hge.
    assert (Hlt := proj1 H eq_refl). lra.
  - split; [|reflexivity]. intros _.
    apply Rnot_lt_ge. intro Hlt. apply H in Hlt. discriminate.
Qed.

Lemma all_separatedb_iff (ms : Q) (cs : list circle) :
  all_separatedb ms cs = true <-> all_separated ms cs.
Proof.
  unfold all_separated. induction cs as [|c cs IH]; simpl.
  - split; [constructor | reflexivity].
  - rewrite andb_true_iff, forallb_forall, IH. split.
    + intros [Hc Hcs]. constructor; [|exact Hcs].
      apply Forall_forall. intros x Hx. apply separatedb_iff, Hc, Hx.
    + intro H. inversion H as [|? ? Hc Hcs]; subst. split; [|exact Hcs].
      intros x Hx. apply separatedb_iff.
      rewrite Forall_forall in Hc. apply Hc, Hx.
Qed.

Lemma hypot_sym (dx dy : Q) : hypot (- dx) (- dy) = hypot dx dy.
Proof.
  unfold hypot. rewrite !Q2R_opp. f_equal. ring.
Qed.

Lemma distance_sym (a b : circle) : distance a b = distance b a.
Proof.
  unfold distance, hypot.
  rewrite !Q2R_minus. f_equal. ring.
Qed.

Lemma separated_sym (ms : Q) (a b : circle) :
  separated ms a b -> separated ms b a.
Proof.
  unfold separated. rewrite (distance_sym a b).
  intro H.
  replace (Q2R (radius b + radius a + ms)) with (Q2R (radius a + radius b + ms)).
  - exact H.
  - rewrite !Q2R_plus. ring.
Qed.

(** The test of the inner loops is the negation of the spacing rule for
    the candidate circle. *)
Lemma too_close_false (cx cy diam ms : Q) (c : circle) :
  too_close cx cy (diam / 2) ms c = false <->
  separated ms (mkCircle cx cy diam) c.
Proof.
  rewrite <- separatedb_iff. unfold separatedb, too_close, radius. simpl.
  rewrite negb_true_iff. reflexivity.
Qed.

Lemma check_ok_Forall (cx cy r ms : Q) (cs : list circle) :
  check_ok cx cy r ms cs = true <->
  Forall (fun c => too_close cx cy r ms c = false) cs.
Proof.
  induction cs as [|c cs IH]; simpl.
  - split; [constructor | reflexivity].
  - destruct (too_close cx cy r ms c) eqn:E.
    + split; [discriminate|]. intro H. inversion H; congruence.
    + rewrite IH. split.
      * intro H. constructor; assumption.
      * intro H. inversion H; assumption.
Qed.

Lemma check_ok_separated (cx cy diam ms : Q) (cs : list circle) :
  check_ok cx cy (diam / 2) ms cs = true <->
  Forall (separated ms (mkCircle cx cy diam)) cs.
Proof.
  rewrite check_ok_Forall. rewrite !Forall_forall.
  split; intros H c Hc; apply too_close_false, H, Hc.
Qed.

Lemma check_ok_app (cx cy r ms : Q) (l1 l2 : list circle) :
  check_ok cx cy r ms (l1 ++ l2) =
  check_ok cx cy r ms l1 && check_ok cx cy r ms l2.
Proof.
  induction l1 as [|c l1 IH]; simpl; [reflexivity|].
  destruct (too_close cx cy r ms c); [reflexivity | exact IH].
Qed.

(** Pairs of a concatenation, for any relation. *)
Lemma ForallOrdPairs_app {A : Type} (P : A -> A -> Prop) (l1 l2 : list A) :
  ForallOrdPairs P (l1 ++ l2) <->
  ForallOrdPairs P l1 /\ ForallOrdPairs P l2 /\
  (forall a b, In a l1 -> In b l2 -> P a b).
Proof.
  induction l1 as [|x l1 IH]; simpl.
  - split.
    + intro H. repeat split; [constructor | exact H | contradiction].
    + intros (_ & H & _). exact H.
  - split.
    + intro H. inversion H as [|? ? Hx Hl]; subst.
      apply IH in Hl. destruct Hl as (H1 & H2 & H12).
      rewrite Forall_app in Hx. destruct Hx as [Hx1 Hx2].
      repeat split.
      * constructor; assumption.
      * exact H2.
      * intros a b [<- | Ha] Hb.
        -- rewrite Forall_forall in Hx2. apply Hx2, Hb.
        -- apply H12; assumption.
    + intros (H1 & H2 & H12).
      inversion H1 as [|? ? Hx Hl]; subst.
      constructor.
      * apply Forall_app. split; [exact Hx|].
        apply Forall_forall. intros b Hb. apply H12; [left; reflexivity | exact Hb].
      * apply IH. repeat split; [exact Hl | exact H2 |].
        intros a b Ha Hb. apply H12; [right; exact Ha | exact Hb].
Qed.

Lemma all_separated_snoc (ms : Q) (cs : list circle) (c : circle) :
  all_separated ms cs -> Forall (separated ms c) cs ->
  all_separated ms (cs ++ [c]).
Proof.
  intros Hcs Hc. apply ForallOrdPairs_app. repeat split.
  - exact Hcs.
  - constructor; constructor.
  - intros a b Ha [<- | []]. apply separated_sym.
    rewrite Forall_forall in Hc. apply Hc, Ha.
Qed.

(** ** One slot: the attempts for one circle *)

Section Slots.

Variable rng : nat -> Q.

Lemma add_attempts_spec (fuel : nat) (R : rectangle) (diam r ms : Q)
    (existing new_circles : list circle) (i : nat) :
  match add_attempts rng fuel R diam r ms existing new_circles i with
  | (Some c, i') =>
      exists k, slot_hit rng fuel R r ms (existing ++ new_circles) i k /\
                c = candidate rng R diam r ms (i + 2 * k) /\
                i' = (i + 2 * k + 2)%nat
  | (None, i') =>
      slot_exhausted rng fuel R r ms (existing ++ new_circles) i /\
      i' = (i + 2 * fuel)%nat
  end.
Proof.
  revert i. induction fuel as [|fuel IH]; intro i; cbn [add_attempts].
  - split; [|lia]. intros j Hj. lia.
  - assert (Hacc : accepted rng R r ms (existing ++ new_circles) i =
                   check_ok (draw_cx rng R r ms i) (draw_cy rng R r ms i) r ms existing
                   && check_ok (draw_cx rng R r ms i) (draw_cy rng R r ms i) r ms new_circles)
      by apply check_ok_app.
    assert (Hstep : forall res i',
      accepted rng R r ms (existing ++ new_circles) i = false ->
      match res with
      | Some c =>
          exists k, slot_hit rng fuel R r ms (existing ++ new_circles) (2 + i) k /\
                    c = candidate rng R diam r ms (2 + i + 2 * k) /\
                    i' = (2 + i + 2 * k + 2)%nat
      | None =>
          slot_exhausted rng fuel R r ms (existing ++ new_circles) (2 + i) /\
          i' = (2 + i + 2 * fuel)%nat
      end ->
      match res with
      | Some c =>
          exists k, slot_hit rng (S fuel) R r ms (existing ++ new_circles) i k /\
                    c = candidate rng R diam r ms (i + 2 * k) /\
                    i' = (i + 2 * k + 2)%nat
      | None =>
          slot_exhausted rng (S fuel) R r ms (existing ++ new_circles) i /\
          i' = (i + 2 * S fuel)%nat
      end).
    { intros res i' Hrej Hrec. destruct res as [c|].
      - destruct Hrec as (k & (Hk & Hbefore & Hat) & Hc & Hi').
        exists (S k). repeat split.
        + lia.
        + intros [|j] Hj.
          * replace (i + 2 * 0)%nat with i by lia. exact Hrej.
          * replace (i + 2 * S j)%nat with (2 + i + 2 * j)%nat by lia.
            apply Hbefore. lia.
        + replace (i + 2 * S k)%nat with (2 + i + 2 * k)%nat by lia. exact Hat.
        + replace (i + 2 * S k)%nat with (2 + i + 2 * k)%nat by lia. exact Hc.
        + lia.
      - destruct Hrec as (Hall & Hi'). split; [|lia].
        intros [|j] Hj.
        + replace (i + 2 * 0)%nat with i by lia. exact Hrej.
        + replace (i + 2 * S j)%nat with (2 + i + 2 * j)%nat by lia.
          apply Hall. lia. }
    destruct (check_ok _ _ r ms existing) eqn:E1; cbn [negb].
    + destruct (check_ok _ _ r ms new_circles) eqn:E2; cbn [andb] in Hacc.
      * exists 0%nat.
        replace (i + 2 * 0)%nat with i by lia.
        split; [|split; [reflexivity | lia]].
        split; [lia|]. split; [intros j Hj; lia|].
        replace (i + 2 * 0)%nat with i by lia. exact Hacc.
      * specialize (IH (2 + i)%nat).
        destruct (add_attempts rng fuel R diam r ms existing new_circles (2 + i))
          as [res i'].
        apply Hstep; assumption.
    + cbn [andb] in Hacc. specialize (IH (2 + i)%nat).
      destruct (add_attempts rng fuel R diam r ms existing new_circles (2 + i))
        as [res i'].
      apply Hstep; assumption.
Qed.

(** The loop of [mix_circles] is the one of [add_random_circles] with no
    pre-existing circles. *)
Lemma mix_attempts_add (fuel : nat) (R : rectangle) (diam r ms : Q)
    (new_circles : list circle) (i : nat) :
  mix_attempts rng fuel R diam r ms new_circles i =
  add_attempts rng fuel R diam r ms [] new_circles i.
Proof.
  revert i. induction fuel as [|fuel IH]; intro i; simpl; [reflexivity|].
  destruct (check_ok _ _ r ms new_circles); [reflexivity | apply IH].
Qed.

Lemma mix_attempts_spec (fuel : nat) (R : rectangle) (diam r ms : Q)
    (new_circles : list circle) (i : nat) :
  match mix_attempts rng fuel R diam r ms new_circles i with
  | (Some c, i') =>
      exists k, slot_hit rng fuel R r ms new_circles i k /\
                c = candidate rng R diam r ms (i + 2 * k) /\
                i' = (i + 2 * k + 2)%nat
  | (None, i') =>
      slot_exhausted rng fuel R r ms new_circles i /\
      i' = (i + 2 * fuel)%nat
  end.
Proof.
  rewrite mix_attempts_add. apply (add_attempts_spec fuel R diam r ms [] new_circles i).
Qed.

End Slots.

(** ** Subsequences *)

Lemma subseq_length {A : Type} (l1 l2 : list A) :
  subseq l1 l2 -> (length l1 <= length l2)%nat.
Proof. induction 1; simpl; lia. Qed.

Lemma subseq_In {A : Type} (l1 l2 : list A) (x : A) :
  subseq l1 l2 -> In x l1 -> In x l2.
Proof.
  induction 1 as [|y l1 l2 _ IH|y l1 l2 _ IH]; simpl; intro Hx.
  - exact Hx.
  - right. apply IH, Hx.
  - destruct Hx as [-> | Hx]; [left; reflexivity | right; apply IH, Hx].
Qed.

Lemma subseq_nil_l {A : Type} (l : list A) : subseq [] l.
Proof. induction l; constructor; assumption. Qed.

(** ** The sort of the diameters *)

Lemma insert_desc_perm (x : Q) (l : list Q) : Permutation (insert_desc x l) (x :: l).
Proof.
  induction l as [|y l IH]; simpl.
  - apply Permutation_refl.
  - destruct (Qleb y x).
    + apply Permutation_refl.
    + eapply perm_trans; [apply perm_skip, IH | apply perm_swap].
Qed.

Lemma sort_desc_perm (l : list Q) : Permutation (sort_desc l) l.
Proof.
  induction l as [|x l IH]; simpl.
  - apply Permutation_refl.
  - eapply perm_trans; [apply insert_desc_perm | apply perm_skip, IH].
Qed.

Lemma insert_desc_sorted (x : Q) (l : list Q) :
  descending l -> descending (insert_desc x l).
Proof.
  unfold descending. induction l as [|y l IH]; simpl; intro H.
  - constructor; constructor.
  - inversion H as [|? ? Hl Hy]; subst.
    destruct (Qleb y x) eqn:E.
    + apply Qleb_le in E. constructor; [exact H|].
      constructor; [exact E|].
      rewrite Forall_forall in *. intros z Hz.
      apply Qle_trans with y; [apply Hy, Hz | exact E].
    + apply Qleb_gt in E. constructor; [apply IH, Hl|].
      rewrite Forall_forall in *. intros z Hz.
      apply (Permutation_in _ (insert_desc_perm x l)) in Hz.
      destruct Hz as [<- | Hz]; [apply Qlt_le_weak, E | apply Hy, Hz].
Qed.

Lemma sort_desc_sorted (l : list Q) : descending (sort_desc l).
Proof.
  induction l as [|x l IH]; simpl.
  - constructor.
  - apply insert_desc_sorted, IH.
Qed.

(** ** Edge clearance of a candidate *)


Lemma in_boxb_iff (R : rectangle) (ms : Q) (c : circle) :
  in_boxb R ms c = true <-> in_box R ms c.
Proof.
  unfold in_boxb, in_box. rewrite !andb_true_iff, !Qleb_le. tauto.
Qed.


Lemma no_room_false (R : rectangle) (r ms : Q) :
  no_room R r ms = false <->
  2 * (r + ms) < w_mm R /\ 2 * (r + ms) < h_mm R.
Proof.
  unfold no_room. rewrite orb_false_iff, !Qleb_gt. tauto.
Qed.

Lemma no_room_true (R : rectangle) (r ms : Q) :
  no_room R r ms = true <->
  w_mm R <= 2 * (r + ms) \/ h_mm R <= 2 * (r + ms).
Proof.
  unfold no_room. rewrite orb_true_iff, !Qleb_le. tauto.
Qed.


(** ** The placement policies *)

Section Policies.

Variable rng : nat -> Q.

Lemma add_loop_policy (R : rectangle) (diam ms : Q) (existing : list circle)
    (n : nat) (new_circles : list circle) (placed i : nat) :
  match add_loop rng n R diam (diam / 2) ms existing new_circles placed i with
  | (final, placed', i') =>
      place_policy rng R diam ms existing n new_circles i final i' /\
      (placed' + length new_circles = placed + length final)%nat
  end.
Proof.
  revert new_circles placed i.
  induction n as [|n IH]; intros new_circles placed i; cbn [add_loop].
  - split; [constructor | lia].
  - pose proof (add_attempts_spec rng 600 R diam (diam / 2) ms existing new_circles i) as Hs.
    destruct (add_attempts rng 600 R diam (diam / 2) ms existing new_circles i)
      as [[c|] i1].
    + destruct Hs as (k & Hhit & -> & ->).
      specialize (IH (new_circles ++ [candidate rng R diam (diam / 2) ms (i + 2 * k)])
                     (S placed) (i + 2 * k + 2)%nat).
      destruct (add_loop rng n R diam (diam / 2) ms existing _ (S placed) (i + 2 * k + 2))
        as [[final placed'] i'].
      destruct IH as [Hpol Hlen]. split.
      * eapply pp_hit; eassumption.
      * rewrite length_app in Hlen. simpl in Hlen. lia.
    + destruct Hs as [Hex ->]. split; [apply pp_stop, Hex | lia].
Qed.

(** What a pass of [add_random_circles] appends. *)
Lemma place_policy_extends R diam ms existing n new i final i' :
  place_policy rng R diam ms existing n new i final i' ->
  exists extra, final = new ++ extra /\ (length extra <= n)%nat /\
                Forall (fun c => d_mm c = diam) extra.
Proof.
  induction 1 as [new i | n new i k final i' Hhit _ IH | n new i Hex].
  - exists []. rewrite app_nil_r. repeat split; [simpl; lia | constructor].
  - destruct IH as (extra & -> & Hlen & Hd).
    exists (candidate rng R diam (diam / 2) ms (i + 2 * k) :: extra).
    rewrite <- app_assoc. repeat split.
    + simpl. lia.
    + constructor; [reflexivity | exact Hd].
  - exists []. rewrite app_nil_r. repeat split; [simpl; lia | constructor].
Qed.

(** A pass never draws more than 600 candidates per requested slot. *)
Lemma place_policy_draws R diam ms existing n new i final i' :
  place_policy rng R diam ms existing n new i final i' ->
  (i <= i' /\ i' <= i + 2 * 600 * n)%nat.
Proof.
  induction 1 as [new i | n new i k final i' (Hk & _) _ IH | n new i Hex]; lia.
Qed.

Lemma accepted_separated R diam ms others i :
  accepted rng R (diam / 2) ms others i = true ->
  Forall (separated ms (candidate rng R diam (diam / 2) ms i)) others.
Proof. unfold accepted, candidate. apply check_ok_separated. Qed.

(** A pass keeps the spacing rule of the whole collection. *)
Lemma place_policy_separated R diam ms existing n new i final i' :
  place_policy rng R diam ms existing n new i final i' ->
  all_separated ms (existing ++ new) -> all_separated ms (existing ++ final).
Proof.
  induction 1 as [new i | n new i k final i' (_ & _ & Hacc) _ IH | n new i Hex];
    intro Hsep; try exact Hsep.
  apply IH. rewrite app_assoc. apply all_separated_snoc; [exact Hsep|].
  apply accepted_separated, Hacc.
Qed.

Lemma place_policy_spaced_from R diam ms existing n new i final i' :
  place_policy rng R diam ms existing n new i final i' ->
  spaced_from ms existing new -> spaced_from ms existing final.
Proof.
  induction 1 as [new i | n new i k final i' (_ & _ & Hacc) _ IH | n new i Hex];
    intro Hsep; try exact Hsep.
  apply IH. apply accepted_separated in Hacc.
  rewrite Forall_app in Hacc. destruct Hacc as [Hex Hnew].
  destruct Hsep as [Hpairs Hcross]. split.
  - apply all_separated_snoc; assumption.
  - intros a b Ha Hb. apply in_app_or in Ha. destruct Ha as [Ha | [<- | []]].
    + apply Hcross; assumption.
    + rewrite Forall_forall in Hex. split; [|apply separated_sym]; apply Hex, Hb.
Qed.


Lemma mix_loop_policy (R : rectangle) (ms : Q) (ds : list Q)
    (new_circles : list circle) (placed i : nat) :
  match mix_loop rng ds R ms new_circles placed i with
  | (final, placed', i') =>
      mix_policy rng R ms ds new_circles i final i' /\
      (placed' + length new_circles = placed + length final)%nat
  end.
Proof.
  revert new_circles placed i.
  induction ds as [|d ds IH]; intros new_circles placed i; cbn [mix_loop].
  - split; [constructor | lia].
  - destruct (no_room R (d / 2) ms) eqn:Hroom.
    + specialize (IH new_circles placed i).
      destruct (mix_loop rng ds R ms new_circles placed i) as [[final placed'] i'].
      destruct IH as [Hpol Hlen]. split; [apply mp_infeasible; assumption | exact Hlen].
    + pose proof (mix_attempts_spec rng 800 R d (d / 2) ms new_circles i) as Hs.
      destruct (mix_attempts rng 800 R d (d / 2) ms new_circles i) as [[c|] i1].
      * destruct Hs as (k & Hhit & -> & ->).
        specialize (IH (new_circles ++ [candidate rng R d (d / 2) ms (i + 2 * k)])
                       (S placed) (i + 2 * k + 2)%nat).
        destruct (mix_loop rng ds R ms _ (S placed) (i + 2 * k + 2))
          as [[final placed'] i'].
        destruct IH as [Hpol Hlen]. split.
        -- eapply mp_hit; eassumption.
        -- rewrite length_app in Hlen. simpl in Hlen. lia.
      * destruct Hs as [Hex ->].
        specialize (IH new_circles placed (i + 2 * 800)%nat).
        destruct (mix_loop rng ds R ms new_circles placed (i + 2 * 800))
          as [[final placed'] i'].
        destruct IH as [Hpol Hlen]. split; [apply mp_exhausted; assumption | exact Hlen].
Qed.

(** The diameters placed by a pass of [mix_circles] are the attempted
    ones with some dropped, in the order of the attempts. *)
Lemma mix_policy_extends R ms ds new i final i' :
  mix_policy rng R ms ds new i final i' ->
  exists extra, final = new ++ extra /\ subseq (map d_mm extra) ds.
Proof.
  induction 1 as [new i | d ds new i final i' _ _ IH
                 | d ds new i k final i' _ _ _ IH | d ds new i final i' _ _ _ IH].
  - exists []. rewrite app_nil_r. split; [reflexivity | constructor].
  - destruct IH as (extra & -> & Hsub). exists extra.
    split; [reflexivity | apply subseq_drop, Hsub].
  - destruct IH as (extra & -> & Hsub).
    exists (candidate rng R d (d / 2) ms (i + 2 * k) :: extra).
    rewrite <- app_assoc. split; [reflexivity | apply subseq_keep, Hsub].
  - destruct IH as (extra & -> & Hsub). exists extra.
    split; [reflexivity | apply subseq_drop, Hsub].
Qed.

(** A pass never draws more than 800 candidates per diameter. *)
Lemma mix_policy_draws R ms ds new i final i' :
  mix_policy rng R ms ds new i final i' ->
  (i <= i' /\ i' <= i + 2 * 800 * length ds)%nat.
Proof.
  induction 1 as [new i | d ds new i final i' _ _ IH
                 | d ds new i k final i' _ (Hk & _) _ IH | d ds new i final i' _ _ _ IH];
    cbn [length]; lia.
Qed.

Lemma mix_policy_separated R ms ds new i final i' :
  mix_policy rng R ms ds new i final i' ->
  all_separated ms new -> all_separated ms final.
Proof.
  induction 1 as [new i | d ds new i final i' _ _ IH
                 | d ds new i k final i' _ (_ & _ & Hacc) _ IH
                 | d ds new i final i' _ _ _ IH];
    intro Hsep; auto.
  apply IH. apply all_separated_snoc; [exact Hsep|].
  apply accepted_separated, Hacc.
Qed.


End Policies.

(** ** The two operations as runs of their policies *)

Lemma redraw_cases (s : app) : redraw s = s \/ redraw s = set_px_per_mm s 1.
Proof.
  unfold redraw, compute_px_per_mm_and_offset.
  destruct (auto_fit_var s); [left; reflexivity|].
  destruct (Qleb (px_per_mm_var s) 0); [right | left]; reflexivity.
Qed.

Lemma redraw_circles (s : app) : circles (redraw s) = circles s.
Proof. destruct (redraw_cases s) as [-> | ->]; reflexivity. Qed.

Lemma redraw_rect (s : app) : rect (redraw s) = rect s.
Proof. destruct (redraw_cases s) as [-> | ->]; reflexivity. Qed.

Lemma redraw_zoom (s : app) : zoom_var (redraw s) = zoom_var s.
Proof. destruct (redraw_cases s) as [-> | ->]; reflexivity. Qed.

Lemma valid_request_guard (s : app) :
  Qleb (circle_diam_var s) 0 || (circle_count_var s <=? 0)%Z
    || Qltb (circle_min_spacing_var s) 0 = false <->
  valid_request s.
Proof.
  unfold valid_request.
  rewrite !orb_false_iff, Qleb_gt, Qltb_ge, Z.leb_gt. tauto.
Qed.

Lemma feasible_guard (s : app) :
  no_room (rect s) (circle_diam_var s / 2) (circle_min_spacing_var s) = false <->
  feasible s.
Proof. apply no_room_false. Qed.

Section Runs.

Variable rng : nat -> Q.

(** A valid, feasible request runs the placement policy from an empty
    list of new circles, appends what was placed and redraws. *)
Lemma add_random_circles_run (s : app) (i : nat) :
  valid_request s -> feasible s ->
  exists new i',
    place_policy rng (rect s) (circle_diam_var s) (circle_min_spacing_var s)
      (circles s) (Z.to_nat (circle_count_var s)) [] i new i' /\
    add_random_circles rng s i =
      (redraw (set_circles s (circles s ++ new)),
       placement_notice (circle_count_var s) (length new), i').
Proof.
  intros Hv Hf. unfold add_random_circles.
  rewrite (proj2 (valid_request_guard s) Hv).
  rewrite (proj2 (feasible_guard s) Hf).
  pose proof (add_loop_policy rng (rect s) (circle_diam_var s)
                (circle_min_spacing_var s) (circles s)
                (Z.to_nat (circle_count_var s)) [] 0 i) as H.
  destruct (add_loop rng _ _ _ _ _ _ _ _ _) as [[new placed] i'].
  destruct H as [Hpol Hlen]. simpl in Hlen.
  exists new, i'. split; [exact Hpol|].
  replace placed with (length new) by lia. reflexivity.
Qed.

(** The three ways [add_random_circles] can end. *)
Lemma add_random_circles_cases (s : app) (i : nat) :
  (~ valid_request s /\ add_random_circles rng s i = (s, [InvalidInput], i)) \/
  (valid_request s /\ ~ feasible s /\
   add_random_circles rng s i = (s, [TooLarge], i)) \/
  (valid_request s /\ feasible s).
Proof.
  unfold add_random_circles.
  pose proof (valid_request_guard s) as Hv.
  pose proof (feasible_guard s) as Hf.
  destruct (Qleb (circle_diam_var s) 0 || (circle_count_var s <=? 0)%Z
            || Qltb (circle_min_spacing_var s) 0).
  - left. split; [|reflexivity]. intro H. apply Hv in H. discriminate.
  - right. assert (Hvalid : valid_request s) by (apply Hv; reflexivity).
    destruct (no_room (rect s) (circle_diam_var s / 2) (circle_min_spacing_var s)).
    + left. split; [exact Hvalid|]. split; [|reflexivity].
      intro H. apply Hf in H. discriminate.
    + right. split; [exact Hvalid | apply Hf; reflexivity].
Qed.

Lemma mix_circles_nil (s : app) (i : nat) :
  circles s = [] -> mix_circles rng s i = (s, [], i).
Proof.
  intro E. unfold mix_circles. rewrite E. reflexivity.
Qed.

(** On a non-empty collection [mix_circles] runs its policy on the sorted
    diameters, replaces the collection by what was placed and redraws. *)
Lemma mix_circles_run (s : app) (i : nat) :
  circles s <> [] ->
  exists final i',
    mix_policy rng (rect s) (circle_min_spacing_var s)
      (sort_desc (map d_mm (circles s))) [] i final i' /\
    mix_circles rng s i =
      (redraw (set_circles s final),
       mix_notice (length (circles s)) (length final), i').
Proof.
  intro Hne. unfold mix_circles.
  destruct (circles s) as [|c cs] eqn:E; [congruence|].
  pose proof (mix_loop_policy rng (rect s) (circle_min_spacing_var s)
                (sort_desc (map d_mm (c :: cs))) [] 0 i) as H.
  destruct (mix_loop rng _ _ _ _ _ _) as [[final placed] i'].
  destruct H as [Hpol Hlen]. simpl in Hlen.
  exists final, i'. split; [exact Hpol|].
  replace placed with (length final) by lia. reflexivity.
Qed.

End Runs.

(** * The claims *)

(** C2.  Feasibility gate: for a valid request (diameter > 0, count > 0,
    minimum spacing >= 0), when the rectangle's width or height is at most
    [2 * (diameter / 2 + min_spacing)], [add_random_circles] shows the
    "too large" warning and returns at once: the state, and with it the
    circle collection, is unchanged, nothing is placed and the sampler is
    not read (the counter is returned as it was, for every stream). *)
Theorem add_random_circles_feasibility_gate (rng : nat -> Q) (s : app) (i : nat) :
  0 < circle_diam_var s ->
  (0 < circle_count_var s)%Z ->
  0 <= circle_min_spacing_var s ->
  w_mm (rect s) <= 2 * (circle_diam_var s / 2 + circle_min_spacing_var s) \/
  h_mm (rect s) <= 2 * (circle_diam_var s / 2 + circle_min_spacing_var s) ->
  add_random_circles rng s i = (s, [TooLarge], i).
Proof.
  intros Hd Hc Hm Hroom.
  destruct (add_random_circles_cases rng s i) as [[Hnv _] | [(_ & _ & E) | [_ Hf]]].
  - exfalso. apply Hnv. repeat split; assumption.
  - exact E.
  - exfalso. destruct Hf as [Hw Hh]. destruct Hroom as [H | H]; lra.
Qed.

Lemma add_random_circles_feasibility_gate_witness :
  add_random_circles (fun _ => 1 # 2) gate_app 0 = (gate_app, [TooLarge], 0%nat).
Proof.
  apply add_random_circles_feasibility_gate.
  - reflexivity.
  - reflexivity.
  - discriminate.
  - left. discriminate.
Defined.

(** C10.  Mixing an empty collection is a no-op: [mix_circles] returns at
    once with the state unchanged, no message box and no sample read. *)
Theorem mix_circles_empty (rng : nat -> Q) (s : app) (i : nat) :
  circles s = [] -> mix_circles rng s i = (s, [], i).
Proof. apply mix_circles_nil. Qed.

Lemma mix_circles_empty_witness :
  mix_circles (fun _ => 1 # 2) init_app 7 = (init_app, [], 7%nat).
Proof.
  apply mix_circles_empty. reflexivity.
Defined.

(** C8.  [add_random_circles] never removes or alters existing circles:
    after a call that was not aborted, the collection is the prior one,
    unchanged and in its order, followed by the newly placed circles only
    (each of the requested diameter); their number, which is the count
    reported, is at most the requested count. *)
Theorem add_random_circles_keeps_existing (rng : nat -> Q) (s : app) (i : nat) :
  valid_request s -> feasible s ->
  exists new,
    circles (state_after (add_random_circles rng s i)) = circles s ++ new /\
    (Z.of_nat (length new) <= circle_count_var s)%Z /\
    Forall (fun c => d_mm c = circle_diam_var s) new /\
    snd (fst (add_random_circles rng s i)) =
      placement_notice (circle_count_var s) (length new).
Proof.
  intros Hv Hf.
  destruct (add_random_circles_run rng s i Hv Hf) as (new & i' & Hpol & ->).
  exists new. unfold state_after. cbn [fst snd].
  rewrite redraw_circles. cbn [circles set_circles].
  destruct (place_policy_extends rng _ _ _ _ _ _ _ _ _ Hpol) as (extra & E & Hlen & Hd).
  simpl in E. subst extra.
  repeat split; try assumption; try reflexivity.
  destruct Hv as (_ & Hc & _). lia.
Qed.

Lemma add_random_circles_keeps_existing_witness :
  exists new,
    circles (state_after (add_random_circles keep_rng keep_app 0)) =
      circles keep_app ++ new /\
    (Z.of_nat (length new) <= circle_count_var keep_app)%Z /\
    Forall (fun c => d_mm c = circle_diam_var keep_app) new /\
    snd (fst (add_random_circles keep_rng keep_app 0)) =
      placement_notice (circle_count_var keep_app) (length new).
Proof.
  apply add_random_circles_keeps_existing.
  - split; [reflexivity | split; [reflexivity | discriminate]].
  - split; reflexivity.
Defined.




(** C1, as amended.  [mix_circles] leaves a collection in which every pair
    keeps the minimum spacing.  [add_random_circles] appends circles that
    keep it among themselves and towards every pre-existing circle; the
    pairs of pre-existing circles are not re-examined, so the whole
    collection keeps the spacing when the pre-existing circles already
    did. *)
Theorem placement_spacing (rng : nat -> Q) (s : app) (i : nat) :
  (exists new,
     circles (state_after (add_random_circles rng s i)) = circles s ++ new /\
     spaced_from (circle_min_spacing_var s) (circles s) new /\
     (all_separated (circle_min_spacing_var s) (circles s) ->
      all_separated (circle_min_spacing_var s)
        (circles (state_after (add_random_circles rng s i))))) /\
  all_separated (circle_min_spacing_var s)
    (circles (state_after (mix_circles rng s i))).
Proof.
  assert (Hnil : spaced_from (circle_min_spacing_var s) (circles s) []).
  { split; [constructor | intros a b []]. }
  split.
  - destruct (add_random_circles_cases rng s i) as [[_ ->] | [(_ & _ & ->) | [Hv Hf]]].
    + exists []. rewrite app_nil_r.
      split; [reflexivity | split; [exact Hnil | intro H; exact H]].
    + exists []. rewrite app_nil_r.
      split; [reflexivity | split; [exact Hnil | intro H; exact H]].
    + destruct (add_random_circles_run rng s i Hv Hf) as (new & i' & Hpol & ->).
      exists new. unfold state_after. cbn [fst]. rewrite redraw_circles.
      cbn [circles set_circles]. split; [reflexivity|]. split.
      * eapply place_policy_spaced_from; [exact Hpol | exact Hnil].
      * intro Hsep. eapply place_policy_separated; [exact Hpol|].
        rewrite app_nil_r. exact Hsep.
  - destruct (circles s) as [|c cs] eqn:E.
    + rewrite (mix_circles_nil rng s i E). unfold state_after. cbn [fst].
      rewrite E. constructor.
    + assert (Hne : circles s <> []) by congruence.
      destruct (mix_circles_run rng s i Hne) as (final & i' & Hpol & ->).
      unfold state_after. cbn [fst]. rewrite redraw_circles.
      cbn [circles set_circles].
      eapply mix_policy_separated; [exact Hpol | constructor].
Qed.

Lemma placement_spacing_witness :
  all_separated (circle_min_spacing_var keep_app)
    (circles (state_after (add_random_circles keep_rng keep_app 0))).
Proof.
  destruct (placement_spacing keep_rng keep_app 0) as [(new & _ & _ & H) _].
  apply H. apply all_separatedb_iff. reflexivity.
Defined.

(** C1 as stated fails: two circles placed with spacing 0 sit 100 mm
    apart; a later call with spacing 20 places a third circle and leaves
    that pair, which is closer than 50 + 50 + 20, in the collection. *)
Lemma placement_spacing_counterexample :
  all_separated 0 (circles crowd_app) /\
  snd (fst (add_random_circles crowd_rng (set_request crowd_app 100 1 20) 4)) = [] /\
  ~ all_separated 20
      (circles (state_after
         (add_random_circles crowd_rng (set_request crowd_app 100 1 20) 4))).
Proof.
  split; [|split].
  - apply all_separatedb_iff. vm_compute. reflexivity.
  - vm_compute. reflexivity.
  - intro H. apply all_separatedb_iff in H. vm_compute in H. discriminate.
Qed.

(** ** Early exit of [add_random_circles] *)

(** A pass that placed fewer circles than it had slots ended on an
    exhausted slot: its last 600 candidates were all rejected against the
    final collection, and nothing was drawn after them. *)
Lemma place_policy_stopped rng R diam ms existing n new i final i' :
  place_policy rng R diam ms existing n new i final i' ->
  (length final < length new + n)%nat ->
  slot_exhausted rng 600 R (diam / 2) ms (existing ++ final) (i' - 2 * 600) /\
  (i + 2 * 600 <= i')%nat.
Proof.
  induction 1 as [new i | n new i k final i' Hhit _ IH | n new i Hex]; intro Hlen.
  - lia.
  - rewrite length_app in IH. cbn [length] in IH.
    destruct IH as [Hex Hi]; [lia|]. split; [exact Hex | lia].
  - replace (i + 2 * 600 - 2 * 600)%nat with i by lia. split; [exact Hex | lia].
Qed.

(** The slots attempted are the placed ones and at most one more. *)
Lemma place_policy_budget rng R diam ms existing n new i final i' :
  place_policy rng R diam ms existing n new i final i' ->
  (i' + 2 * 600 * length new <= i + 2 * 600 * (length final + 1))%nat.
Proof.
  induction 1 as [new i | n new i k final i' (Hk & _) _ IH | n new i Hex].
  - lia.
  - rewrite length_app in IH. cbn [length] in IH. lia.
  - lia.
Qed.

(** C4.  Early-exit policy of [add_random_circles]: a valid, feasible
    request is served slot by slot as [place_policy] describes: a slot
    draws at most 600 candidates and keeps the first one accepted against
    the existing and the already placed circles; a slot whose 600
    candidates are all rejected ends the pass, with no slot attempted
    after it.  The collection after the call is the previous one followed
    by exactly the circles placed so far, whose number, at most the
    requested count, is the one reported; the candidates drawn are at
    most 600 for each placed circle and one more slot, and never more
    than 600 per requested circle. *)
Theorem add_random_circles_early_exit (rng : nat -> Q) (s : app) (i : nat) :
  valid_request s -> feasible s ->
  exists new i',
    add_random_circles rng s i =
      (redraw (set_circles s (circles s ++ new)),
       placement_notice (circle_count_var s) (length new), i') /\
    circles (state_after (add_random_circles rng s i)) = circles s ++ new /\
    snd (fst (add_random_circles rng s i)) =
      placement_notice (circle_count_var s) (length new) /\
    (Z.of_nat (length new) <= circle_count_var s)%Z /\
    place_policy rng (rect s) (circle_diam_var s) (circle_min_spacing_var s)
      (circles s) (Z.to_nat (circle_count_var s)) [] i new i' /\
    (i <= i')%nat /\
    (i' <= i + 2 * 600 * Nat.min (Z.to_nat (circle_count_var s)) (length new + 1))%nat /\
    ((Z.of_nat (length new) < circle_count_var s)%Z ->
     slot_exhausted rng 600 (rect s) (circle_diam_var s / 2)
       (circle_min_spacing_var s) (circles s ++ new) (i' - 2 * 600) /\
     (i + 2 * 600 <= i')%nat /\
     placement_notice (circle_count_var s) (length new) =
       [PlacementLimited (circle_count_var s) (length new)]).
Proof.
  intros Hv Hf.
  destruct (add_random_circles_run rng s i Hv Hf) as (new & i' & Hpol & E).
  exists new, i'. split; [exact E|].
  split. { rewrite E. unfold state_after. cbn [fst]. rewrite redraw_circles. reflexivity. }
  split. { rewrite E. reflexivity. }
  split.
  { destruct (place_policy_extends rng _ _ _ _ _ _ _ _ _ Hpol) as (extra & Ex & Hlen & _).
    cbn [Datatypes.app] in Ex. subst extra. destruct Hv as (_ & Hc & _). lia. }
  split; [exact Hpol|].
  pose proof (place_policy_draws rng _ _ _ _ _ _ _ _ _ Hpol) as [Hlo Hhi].
  pose proof (place_policy_budget rng _ _ _ _ _ _ _ _ _ Hpol) as Hb.
  cbn [length] in Hb.
  split; [exact Hlo|]. split; [lia|].
  intro Hshort.
  destruct (place_policy_stopped rng _ _ _ _ _ _ _ _ _ Hpol) as [Hex Hi].
  { cbn [length]. lia. }
  split; [exact Hex|]. split; [exact Hi|].
  unfold placement_notice.
  destruct (Z.ltb_spec (Z.of_nat (length new)) (circle_count_var s)); [reflexivity | lia].
Qed.

Lemma add_random_circles_early_exit_witness :
  exists new i',
    add_random_circles (fun _ => 1 # 2) keep_app 0 =
      (redraw (set_circles keep_app (circles keep_app ++ new)),
       placement_notice (circle_count_var keep_app) (length new), i') /\
    circles (state_after (add_random_circles (fun _ => 1 # 2) keep_app 0)) =
      circles keep_app ++ new /\
    snd (fst (add_random_circles (fun _ => 1 # 2) keep_app 0)) =
      placement_notice (circle_count_var keep_app) (length new) /\
    (Z.of_nat (length new) <= circle_count_var keep_app)%Z /\
    place_policy (fun _ => 1 # 2) (rect keep_app) (circle_diam_var keep_app)
      (circle_min_spacing_var keep_app)
      (circles keep_app) (Z.to_nat (circle_count_var keep_app)) [] 0 new i' /\
    (0 <= i')%nat /\
    (i' <= 0 + 2 * 600 * Nat.min (Z.to_nat (circle_count_var keep_app)) (length new + 1))%nat /\
    ((Z.of_nat (length new) < circle_count_var keep_app)%Z ->
     slot_exhausted (fun _ => 1 # 2) 600 (rect keep_app) (circle_diam_var keep_app / 2)
       (circle_min_spacing_var keep_app) (circles keep_app ++ new) (i' - 2 * 600) /\
     (0 + 2 * 600 <= i')%nat /\
     placement_notice (circle_count_var keep_app) (length new) =
       [PlacementLimited (circle_count_var keep_app) (length new)]).
Proof.
  apply add_random_circles_early_exit.
  - split; [reflexivity | split; [reflexivity | discriminate]].
  - split; reflexivity.
Defined.

(** With every sample equal to 1/2 the first slot takes the centre of the
    box at once, the second slot is rejected 600 times, and the third
    requested circle is never attempted: 2 + 1200 samples are read. *)
Example add_random_circles_stops_early :
  add_random_circles (fun _ => 1 # 2) (set_request keep_app 100 3 20) 0 =
    (set_circles (set_request keep_app 100 3 20)
       [mkCircle 100 100 100;
        candidate (fun _ => 1 # 2) (rect keep_app) 100 (100 / 2) 20 0],
     [PlacementLimited 3 1], 1202%nat).
Proof. vm_compute. reflexivity. Qed.

(** ** Repacking *)

(** [mix_circles] reads the diameters of the collection only. *)
Lemma mix_circles_positions (rng : nat -> Q) (s : app) (cs : list circle) (i : nat) :
  map d_mm cs = map d_mm (circles s) ->
  cs <> [] ->
  mix_circles rng (set_circles s cs) i = mix_circles rng s i.
Proof.
  intros Hd Hne. unfold mix_circles. cbn [circles set_circles rect
    circle_min_spacing_var].
  assert (Hlen : length cs = length (circles s)).
  { rewrite <- (length_map d_mm cs), Hd. apply length_map. }
  destruct cs as [|c cs']; [congruence|].
  destruct (circles s) as [|c0 cs0] eqn:E; [discriminate|].
  rewrite Hd, Hlen.
  destruct (mix_loop rng _ _ _ _ _ _) as [[final placed] i'].
  reflexivity.
Qed.

(** C5.  Repack: on a non-empty collection [mix_circles] follows
    [mix_policy] on the diameters sorted in descending order, starting
    from no placed circle: each candidate is checked against the circles
    placed in this pass only, an infeasible diameter and a diameter whose
    800 candidates are all rejected are dropped, and the pass goes on
    with the remaining diameters.  The result replaces the collection;
    its diameters are the sorted input diameters with some dropped, so
    there are at most as many circles as before and every diameter was in
    the input; at most 800 candidates are drawn per circle; and the old
    positions do not matter: a collection with the same diameters gives
    the same result. *)
Theorem mix_circles_repack (rng : nat -> Q) (s : app) (i : nat) :
  circles s <> [] ->
  exists final i',
    mix_circles rng s i =
      (redraw (set_circles s final),
       mix_notice (length (circles s)) (length final), i') /\
    circles (state_after (mix_circles rng s i)) = final /\
    mix_policy rng (rect s) (circle_min_spacing_var s)
      (sort_desc (map d_mm (circles s))) [] i final i' /\
    descending (sort_desc (map d_mm (circles s))) /\
    Permutation (sort_desc (map d_mm (circles s))) (map d_mm (circles s)) /\
    subseq (map d_mm final) (sort_desc (map d_mm (circles s))) /\
    (length final <= length (circles s))%nat /\
    (forall d, In d (map d_mm final) -> In d (map d_mm (circles s))) /\
    (i <= i' /\ i' <= i + 2 * 800 * length (circles s))%nat /\
    (forall cs, map d_mm cs = map d_mm (circles s) ->
                mix_circles rng (set_circles s cs) i = mix_circles rng s i).
Proof.
  intro Hne.
  destruct (mix_circles_run rng s i Hne) as (final & i' & Hpol & E).
  exists final, i'. split; [exact E|].
  split. { rewrite E. unfold state_after. cbn [fst]. apply redraw_circles. }
  split; [exact Hpol|].
  split; [apply sort_desc_sorted|].
  pose proof (sort_desc_perm (map d_mm (circles s))) as Hperm.
  split; [exact Hperm|].
  destruct (mix_policy_extends rng _ _ _ _ _ _ _ Hpol) as (extra & Hx & Hsub).
  simpl in Hx. subst extra.
  split; [exact Hsub|].
  split.
  { apply subseq_length in Hsub. rewrite length_map in Hsub.
    rewrite (Permutation_length Hperm), length_map in Hsub. exact Hsub. }
  split.
  { intros d Hd. apply (Permutation_in _ Hperm). eapply subseq_In; eassumption. }
  split.
  { pose proof (mix_policy_draws rng _ _ _ _ _ _ _ Hpol) as Hdraws.
    rewrite (Permutation_length Hperm), length_map in Hdraws. exact Hdraws. }
  intros cs Hd. apply mix_circles_positions; [exact Hd|].
  intros ->. destruct (circles s); [congruence | discriminate].
Qed.

Lemma mix_circles_repack_witness :
  exists final i',
    mix_circles skip_rng skip_app 0 =
      (redraw (set_circles skip_app final),
       mix_notice (length (circles skip_app)) (length final), i') /\
    circles (state_after (mix_circles skip_rng skip_app 0)) = final /\
    mix_policy skip_rng (rect skip_app) (circle_min_spacing_var skip_app)
      (sort_desc (map d_mm (circles skip_app))) [] 0 final i' /\
    descending (sort_desc (map d_mm (circles skip_app))) /\
    Permutation (sort_desc (map d_mm (circles skip_app))) (map d_mm (circles skip_app)) /\
    subseq (map d_mm final) (sort_desc (map d_mm (circles skip_app))) /\
    (length final <= length (circles skip_app))%nat /\
    (forall d, In d (map d_mm final) -> In d (map d_mm (circles skip_app))) /\
    (0 <= i' /\ i' <= 0 + 2 * 800 * length (circles skip_app))%nat /\
    (forall cs, map d_mm cs = map d_mm (circles skip_app) ->
                mix_circles skip_rng (set_circles skip_app cs) 0 =
                mix_circles skip_rng skip_app 0).
Proof.
  apply mix_circles_repack. discriminate.
Defined.

(** The diameters 5000, 200, 100, 60 are tried in this order: 5000 is
    infeasible and costs no draw, 200 takes the centre of its box, 100 is
    rejected 800 times, and 60 is still attempted and placed. *)
Example mix_circles_skips_and_goes_on :
  mix_circles skip_rng skip_app 0 =
    (set_circles skip_app
       [candidate skip_rng (rect skip_app) 200 (200 / 2) 20 0;
        candidate skip_rng (rect skip_app) 60 (60 / 2) 20 1602],
     [MixLimited 4 2], 1604%nat).
Proof. vm_compute. reflexivity. Qed.

(** ** Zoom *)

Lemma zoom_in_var (s : app) : zoom_var (zoom_in s) = Qmin (zoom_var s * (12 # 10)) 10.
Proof. unfold zoom_in. rewrite redraw_zoom. reflexivity. Qed.

Lemma zoom_out_var (s : app) : zoom_var (zoom_out s) = Qmax (zoom_var s / (12 # 10)) (5 # 100).
Proof. unfold zoom_out. rewrite redraw_zoom. reflexivity. Qed.

Lemma zoom_reset_var (s : app) : zoom_var (zoom_reset s) = 1.
Proof. unfold zoom_reset. rewrite redraw_zoom. reflexivity. Qed.

Lemma div_step (z : Q) : z / (12 # 10) == z * (10 # 12).
Proof. reflexivity. Qed.

Lemma zoom_in_range (z : Q) :
  in_zoom_range z -> in_zoom_range (Qmin (z * (12 # 10)) 10).
Proof.
  unfold in_zoom_range. intros [Hlo Hhi].
  destruct (Q.min_spec (z * (12 # 10)) 10) as [[H E] | [H E]]; rewrite E; split; lra.
Qed.

Lemma zoom_out_range (z : Q) :
  in_zoom_range z -> in_zoom_range (Qmax (z / (12 # 10)) (5 # 100)).
Proof.
  unfold in_zoom_range. intros [Hlo Hhi].
  destruct (Q.max_spec (z / (12 # 10)) (5 # 100)) as [[H E] | [H E]];
    rewrite E; rewrite div_step in H; try rewrite div_step; split; lra.
Qed.

Lemma run_zoom_op_range (s : app) (op : zoom_op) :
  in_zoom_range (zoom_var s) -> in_zoom_range (zoom_var (run_zoom_op s op)).
Proof.
  intro H. destruct op; cbn [run_zoom_op].
  - rewrite zoom_in_var. apply zoom_in_range, H.
  - rewrite zoom_out_var. apply zoom_out_range, H.
  - rewrite zoom_reset_var. split; discriminate.
Qed.

Lemma iter_zoom_in_var (n : nat) (s : app) :
  zoom_var (Nat.iter n zoom_in s) =
  Nat.iter n (fun z => Qmin (z * (12 # 10)) 10) (zoom_var s).
Proof.
  induction n as [|n IH]; [reflexivity|].
  change (Nat.iter (S n) zoom_in s) with (zoom_in (Nat.iter n zoom_in s)).
  rewrite zoom_in_var, IH. reflexivity.
Qed.

Lemma iter_zoom_out_var (n : nat) (s : app) :
  zoom_var (Nat.iter n zoom_out s) =
  Nat.iter n (fun z => Qmax (z / (12 # 10)) (5 # 100)) (zoom_var s).
Proof.
  induction n as [|n IH]; [reflexivity|].
  change (Nat.iter (S n) zoom_out s) with (zoom_out (Nat.iter n zoom_out s)).
  rewrite zoom_out_var, IH. reflexivity.
Qed.

Lemma iter_plus {A : Type} (f : A -> A) (x : A) (a b : nat) :
  Nat.iter (a + b) f x = Nat.iter a f (Nat.iter b f x).
Proof.
  induction a as [|a IH]; [reflexivity|].
  change (f (Nat.iter (a + b) f x) = f (Nat.iter a f (Nat.iter b f x))).
  rewrite IH. reflexivity.
Qed.

Lemma iter_fixed {A : Type} (f : A -> A) (x : A) (n : nat) :
  f x = x -> Nat.iter n f x = x.
Proof.
  intro E. induction n as [|n IH]; [reflexivity|].
  change (f (Nat.iter n f x) = x). rewrite IH. exact E.
Qed.

Lemma zoom_in_saturated (n : nat) :
  Nat.iter (n + 13) (fun z => Qmin (z * (12 # 10)) 10) 1 = 10.
Proof.
  rewrite iter_plus.
  assert (E : Nat.iter 13 (fun z => Qmin (z * (12 # 10)) 10) 1 = 10)
    by (vm_compute; reflexivity).
  rewrite E. apply iter_fixed. reflexivity.
Qed.

Lemma zoom_out_saturated (n : nat) :
  Nat.iter (n + 17) (fun z => Qmax (z / (12 # 10)) (5 # 100)) 1 = 5 # 100.
Proof.
  rewrite iter_plus.
  assert (E : Nat.iter 17 (fun z => Qmax (z / (12 # 10)) (5 # 100)) 1 = 5 # 100)
    by (vm_compute; reflexivity).
  rewrite E. apply iter_fixed. reflexivity.
Qed.

(** C9.  Zoom clamping: [zoom_in] multiplies the zoom by 1.2 and caps it
    at 10.0, [zoom_out] divides it by 1.2 and floors it at 0.05,
    [zoom_reset] sets it to 1.0; on a zoom in [0.05, 10.0] both are the
    clamp to that interval, and the zoom stays in the interval under any
    sequence of the three operations.  From 1.0, repeated [zoom_in] stays
    below 10.0 for twelve steps and is exactly 10.0 from the thirteenth
    on; repeated [zoom_out] stays above 0.05 for sixteen steps and is
    exactly 0.05 from the seventeenth on. *)
Theorem zoom_clamping :
  (forall s,
     zoom_var (zoom_in s) = Qmin (zoom_var s * (12 # 10)) 10 /\
     zoom_var (zoom_out s) = Qmax (zoom_var s / (12 # 10)) (5 # 100) /\
     zoom_var (zoom_reset s) = 1) /\
  (forall s, in_zoom_range (zoom_var s) ->
     zoom_var (zoom_in s) == clamp_zoom (zoom_var s * (12 # 10)) /\
     zoom_var (zoom_out s) == clamp_zoom (zoom_var s / (12 # 10))) /\
  (forall ops s, in_zoom_range (zoom_var s) ->
     in_zoom_range (zoom_var (run_zoom_ops ops s))) /\
  (forall s n, zoom_var s = 1 ->
     zoom_var (Nat.iter n zoom_in s) <= 10 /\
     ((n < 13)%nat -> zoom_var (Nat.iter n zoom_in s) < 10) /\
     ((13 <= n)%nat -> zoom_var (Nat.iter n zoom_in s) = 10)) /\
  (forall s n, zoom_var s = 1 ->
     (5 # 100) <= zoom_var (Nat.iter n zoom_out s) /\
     ((n < 17)%nat -> (5 # 100) < zoom_var (Nat.iter n zoom_out s)) /\
     ((17 <= n)%nat -> zoom_var (Nat.iter n zoom_out s) = 5 # 100)).
Proof.
  split; [|split; [|split; [|split]]].
  - intro s. split; [apply zoom_in_var | split; [apply zoom_out_var | apply zoom_reset_var]].
  - intros s Hr. rewrite zoom_in_var, zoom_out_var. unfold clamp_zoom. split.
    + pose proof (zoom_in_range _ Hr) as [Hlo _].
      rewrite (Q.max_r _ _ Hlo). reflexivity.
    + destruct Hr as [Hlo Hhi].
      assert (Hle : zoom_var s / (12 # 10) <= 10) by (rewrite div_step; lra).
      rewrite (Q.min_l _ _ Hle). apply Q.max_comm.
  - intros ops. unfold run_zoom_ops.
    induction ops as [|op ops IH]; intros s Hr; cbn [fold_left]; [exact Hr|].
    apply IH, run_zoom_op_range, Hr.
  - intros s n E. rewrite iter_zoom_in_var, E.
    assert (Hlate : (13 <= n)%nat ->
                    Nat.iter n (fun z => Qmin (z * (12 # 10)) 10) 1 = 10).
    { intro Hn. replace n with (n - 13 + 13)%nat by lia. apply zoom_in_saturated. }
    assert (Hearly : (n < 13)%nat ->
                     Nat.iter n (fun z => Qmin (z * (12 # 10)) 10) 1 < 10).
    { intro Hn.
      do 13 (destruct n as [|n]; [vm_compute; reflexivity|]). lia. }
    split; [|split; assumption].
    destruct (Nat.lt_ge_cases n 13) as [Hn | Hn].
    + apply Qlt_le_weak, Hearly, Hn.
    + rewrite (Hlate Hn). apply Qle_refl.
  - intros s n E. rewrite iter_zoom_out_var, E.
    assert (Hlate : (17 <= n)%nat ->
                    Nat.iter n (fun z => Qmax (z / (12 # 10)) (5 # 100)) 1 = 5 # 100).
    { intro Hn. replace n with (n - 17 + 17)%nat by lia. apply zoom_out_saturated. }
    assert (Hearly : (n < 17)%nat ->
                     (5 # 100) < Nat.iter n (fun z => Qmax (z / (12 # 10)) (5 # 100)) 1).
    { intro Hn.
      do 17 (destruct n as [|n]; [vm_compute; reflexivity|]). lia. }
    split; [|split; assumption].
    destruct (Nat.lt_ge_cases n 17) as [Hn | Hn].
    + apply Qlt_le_weak, Hearly, Hn.
    + rewrite (Hlate Hn). apply Qle_refl.
Qed.

Lemma zoom_clamping_witness :
  in_zoom_range (zoom_var (run_zoom_ops [ZoomIn; ZoomIn; ZoomOut; ZoomReset; ZoomOut] init_app)) /\
  zoom_var (Nat.iter 20 zoom_in init_app) = 10 /\
  zoom_var (Nat.iter 20 zoom_out init_app) = 5 # 100.
Proof.
  destruct zoom_clamping as (_ & _ & Hops & Hin & Hout).
  split; [|split].
  - apply Hops. split; discriminate.
  - apply (Hin init_app 20%nat); [reflexivity | lia].
  - apply (Hout init_app 20%nat); [reflexivity | lia].
Defined.

(** ** Auto-fit *)

Lemma fit_base_compat (cw ch m : Z) (w1 w2 h1 h2 : Q) :
  w1 == w2 -> h1 == h2 -> fit_base cw ch m w1 h1 == fit_base cw ch m w2 h2.
Proof.
  intros Hw Hh. unfold fit_base, Qleb.
  assert (E : Qmin (inject_Z (Z.max 1 (cw - 2 * m)) / w1)
                   (inject_Z (Z.max 1 (ch - 2 * m)) / h1) ==
              Qmin (inject_Z (Z.max 1 (cw - 2 * m)) / w2)
                   (inject_Z (Z.max 1 (ch - 2 * m)) / h2)).
  { rewrite Hw, Hh. reflexivity. }
  rewrite (Qleb_comp _ _ E 0 0 (Qeq_refl 0)).
  destruct (Qle_bool _ 0); [reflexivity | exact E].
Qed.

Lemma scale_of_auto (s : app) :
  auto_fit_var s = true ->
  scale_of s ==
    fit_base (canvas_w s) (canvas_h s) CANVAS_MARGIN_PX
      (Qmax (w_mm (rect s)) (1 # 1000000)) (Qmax (h_mm (rect s)) (1 # 1000000))
    * zoom_var s.
Proof.
  intro Ha. unfold scale_of, compute_px_per_mm_and_offset. rewrite Ha.
  cbn [fst].
  change (fit_base (canvas_w s) (canvas_h s) CANVAS_MARGIN_PX
            (Qmax (x0_mm (rect s) + w_mm (rect s) - x0_mm (rect s)) (1 # 1000000))
            (Qmax (y0_mm (rect s) + h_mm (rect s) - y0_mm (rect s)) (1 # 1000000))
          * zoom_var s ==
          fit_base (canvas_w s) (canvas_h s) CANVAS_MARGIN_PX
            (Qmax (w_mm (rect s)) (1 # 1000000)) (Qmax (h_mm (rect s)) (1 # 1000000))
          * zoom_var s).
  apply Qmult_comp; [|reflexivity].
  apply fit_base_compat; apply Q.max_compat; try reflexivity; ring.
Qed.

(** C7, as amended.  In auto-fit mode the scale is
    [fit_base] of the surface, the 24 px margin and the rectangle's width
    and height each floored at 1e-6 mm, times the zoom: the usable extents
    are the surface minus twice the margin, floored at 1, the base scale
    is the smaller ratio of usable extent to rectangle extent, replaced by
    1.0 if not positive.  The offsets are the margin minus the rectangle's
    origin times the scale, and the state is unchanged.  For a rectangle
    of at least 1e-6 mm each way the floor has no effect; the 800 x 2000
    rectangle in the 848 x 648 surface has base scale 0.3. *)
Theorem auto_fit_transform :
  (forall s, auto_fit_var s = true ->
     scale_of s ==
       fit_base (canvas_w s) (canvas_h s) CANVAS_MARGIN_PX
         (Qmax (w_mm (rect s)) (1 # 1000000)) (Qmax (h_mm (rect s)) (1 # 1000000))
       * zoom_var s /\
     x_offset_of s = inject_Z CANVAS_MARGIN_PX - x0_mm (rect s) * scale_of s /\
     y_offset_of s = inject_Z CANVAS_MARGIN_PX - y0_mm (rect s) * scale_of s /\
     snd (compute_px_per_mm_and_offset s) = s /\
     ((1 # 1000000) <= w_mm (rect s) -> (1 # 1000000) <= h_mm (rect s) ->
      scale_of s ==
        fit_base (canvas_w s) (canvas_h s) CANVAS_MARGIN_PX
          (w_mm (rect s)) (h_mm (rect s)) * zoom_var s)) /\
  fit_base 848 648 CANVAS_MARGIN_PX 800 2000 == 3 # 10 /\
  scale_of (set_canvas init_app 848 648) == 3 # 10.
Proof.
  split; [|split].
  - intros s Ha. split; [apply scale_of_auto, Ha|].
    split; [|split; [|split]].
    + unfold x_offset_of, scale_of, compute_px_per_mm_and_offset. rewrite Ha. reflexivity.
    + unfold y_offset_of, scale_of, compute_px_per_mm_and_offset. rewrite Ha. reflexivity.
    + unfold compute_px_per_mm_and_offset. rewrite Ha. reflexivity.
    + intros Hw Hh. rewrite (scale_of_auto s Ha).
      apply Qmult_comp; [|reflexivity].
      apply fit_base_compat; apply Q.max_l; assumption.
  - vm_compute. reflexivity.
  - vm_compute. reflexivity.
Qed.

Lemma auto_fit_transform_witness :
  scale_of (set_canvas init_app 1000 700) ==
    fit_base 1000 700 CANVAS_MARGIN_PX 800 2000 * 1.
Proof.
  destruct auto_fit_transform as [H _].
  destruct (H (set_canvas init_app 1000 700) eq_refl) as (_ & _ & _ & _ & Hfit).
  apply Hfit; discriminate.
Defined.

(** C7 as stated fails for a rectangle whose positive width and height
    are below 1e-6 mm: the scale is computed from the floored extents, a
    tenth of what the ratio to the true extents gives. *)
Lemma auto_fit_transform_counterexample :
  auto_fit_var tiny_app = true /\
  0 < w_mm (rect tiny_app) /\ 0 < h_mm (rect tiny_app) /\
  ~ scale_of tiny_app ==
      fit_base (canvas_w tiny_app) (canvas_h tiny_app) CANVAS_MARGIN_PX
        (w_mm (rect tiny_app)) (h_mm (rect tiny_app)) * zoom_var tiny_app.
Proof.
  split; [reflexivity|]. split; [reflexivity|]. split; [reflexivity|].
  intro H. vm_compute in H. discriminate.
Qed.

(** ** Export *)

Lemma redraw_canvas_h (s : app) : canvas_h (redraw s) = canvas_h s.
Proof. destruct (redraw_cases s) as [-> | ->]; reflexivity. Qed.

Lemma save_dxf_entities (s : app) (path : string) :
  save_dxf s (Some path) =
    (redraw s,
     Some (dxf_entities (rect s) (circles s)
             (canvas_h_mm_of (canvas_h s) (scale_of s))
             (layer_name_of s) (color_of s))).
Proof.
  unfold save_dxf, scale_of, layer_name_of, color_of.
  pose proof (redraw_rect s) as Hr. pose proof (redraw_circles s) as Hc.
  pose proof (redraw_canvas_h s) as Hh. unfold redraw in *.
  destruct (compute_px_per_mm_and_offset s) as [[[scale xoff] yoff] s'].
  cbn [fst snd] in *. rewrite Hr, Hc, Hh. reflexivity.
Qed.

(** C6.  Export Y-flip: [save_dxf] takes the canvas height in mm to be the
    canvas height in px over the effective scale (the px height itself
    when the scale is zero), and writes the rectangle as a closed polyline
    through top-left, top-right, bottom-right, bottom-left and each circle
    with its radius [d / 2], every point [(x, y)] mapped to
    [(x, canvas_h_mm - y)].  For the rectangle (10, 10, 800, 2000), the
    circle of diameter 100 at (100, 100) and a canvas height of 2020 mm
    the circle is written at (100, 1920) with radius 50 and the polyline
    starts at (10, 2010). *)
Theorem save_dxf_y_flip :
  (forall s path,
     save_dxf s (Some path) =
       (redraw s,
        Some (dxf_entities (rect s) (circles s)
                (canvas_h_mm_of (canvas_h s) (scale_of s))
                (layer_name_of s) (color_of s)))) /\
  (forall h scale,
     (scale == 0 -> canvas_h_mm_of h scale = inject_Z h) /\
     (~ scale == 0 -> canvas_h_mm_of h scale = inject_Z h / scale)) /\
  (forall R cs H layer color,
     dxf_entities R cs H layer color =
       LwPolyline [(x0_mm R, H - y0_mm R);
                   (x0_mm R + w_mm R, H - y0_mm R);
                   (x0_mm R + w_mm R, H - (y0_mm R + h_mm R));
                   (x0_mm R, H - (y0_mm R + h_mm R))] true layer color
       :: map (fun c => Circle (cx_mm c, H - cy_mm c) (d_mm c / 2) layer color) cs) /\
  (dxf_entities (mkRect 10 10 800 2000) [mkCircle 100 100 100] 2020 "0"%string 7 =
     [LwPolyline [(10, 2020 - 10); (10 + 800, 2020 - 10);
                  (10 + 800, 2020 - (10 + 2000)); (10, 2020 - (10 + 2000))]
        true "0"%string 7;
      Circle (100, 2020 - 100) (100 / 2) "0"%string 7] /\
   2020 - 10 == 2010 /\ 2020 - 100 == 1920 /\ 100 / 2 == 50) /\
  (canvas_h_mm_of (canvas_h export_app) (scale_of export_app) == 2020 /\
   rect export_app = mkRect 10 10 800 2000 /\
   circles export_app = [mkCircle 100 100 100]).
Proof.
  split; [|split; [|split; [|split]]].
  - apply save_dxf_entities.
  - intros h scale. unfold canvas_h_mm_of. split; intro Hs.
    + rewrite (Qeq_eq_bool _ _ Hs). reflexivity.
    + destruct (Qeq_bool scale 0) eqn:E; [|reflexivity].
      apply Qeq_bool_eq in E. contradiction.
  - intros R cs H layer color. reflexivity.
  - split; [reflexivity|]. split; [reflexivity|]. split; reflexivity.
  - split; [vm_compute; reflexivity|]. split; reflexivity.
Qed.

Lemma save_dxf_y_flip_witness :
  canvas_h_mm_of 600 0 = inject_Z 600 /\
  canvas_h_mm_of 600 (3 # 10) = inject_Z 600 / (3 # 10).
Proof.
  destruct save_dxf_y_flip as (_ & H & _).
  destruct (H 600%Z 0) as [H0 _]. destruct (H 600%Z (3 # 10)) as [_ H1].
  split; [apply H0; reflexivity | apply H1; discriminate].
Defined.

(** * Further properties of the code *)

(** ** The view transform *)

Lemma guard_positive (b : Q) : 0 < (if Qleb b 0 then 1 else b).
Proof.
  destruct (Qleb b 0) eqn:E; [reflexivity | apply Qleb_gt, E].
Qed.

Lemma usable_positive (z : Z) : 0 < inject_Z (Z.max 1 z).
Proof.
  change 0 with (inject_Z 0). rewrite <- Zlt_Qlt. lia.
Qed.

Lemma scale_of_cases (s : app) :
  exists b, 0 < b /\ scale_of s = b * zoom_var s.
Proof.
  unfold scale_of, compute_px_per_mm_and_offset.
  destruct (auto_fit_var s); cbn [fst].
  - eexists. split; [apply guard_positive | reflexivity].
  - destruct (Qleb (px_per_mm_var s) 0) eqn:E; cbn [fst].
    + exists 1. split; reflexivity.
    + exists (px_per_mm_var s). split; [apply Qleb_gt, E | reflexivity].
Qed.

Lemma scale_positive_facts (s : app) :
  0 < zoom_var s ->
  0 < scale_of s /\
  redraw_px_per_mm s = scale_of s /\
  canvas_h_mm_of (canvas_h s) (scale_of s) = inject_Z (canvas_h s) / scale_of s.
Proof.
  intro Hz.
  assert (Hpos : 0 < scale_of s).
  { destruct (scale_of_cases s) as (b & Hb & ->).
    apply Qmult_lt_0_compat; assumption. }
  split; [exact Hpos|]. split.
  - unfold redraw_px_per_mm.
    destruct (Qleb (scale_of s) 0) eqn:E; [|reflexivity].
    apply Qleb_le in E. exfalso. apply (Qlt_not_le _ _ Hpos E).
  - unfold canvas_h_mm_of.
    destruct (Qeq_bool (scale_of s) 0) eqn:E; [|reflexivity].
    apply Qeq_bool_eq in E. rewrite E in Hpos. discriminate.
Qed.

(** The effective scale is positive whenever the zoom is, in both fit
    modes and for every rectangle, canvas size and manual scale; the
    guards against a non-positive or zero scale in [redraw] and
    [save_dxf] then have no effect. *)
Theorem scale_positive (s : app) :
  0 < zoom_var s ->
  0 < scale_of s /\
  redraw_px_per_mm s = scale_of s /\
  canvas_h_mm_of (canvas_h s) (scale_of s) = inject_Z (canvas_h s) / scale_of s.
Proof. exact (scale_positive_facts s). Qed.

Lemma scale_positive_witness :
  0 < scale_of init_app /\
  redraw_px_per_mm init_app = scale_of init_app /\
  canvas_h_mm_of (canvas_h init_app) (scale_of init_app) =
    inject_Z (canvas_h init_app) / scale_of init_app.
Proof.
  apply scale_positive. reflexivity.
Defined.

(** Reading a canvas position back in millimetres, as the grid labels do,
    undoes [mm_to_canvas_px] for every non-zero scale. *)
Theorem mm_to_canvas_px_round_trip (x y px xo yo : Q) :
  ~ px == 0 ->
  grid_mm_val (fst (mm_to_canvas_px x y px xo yo)) xo px == x /\
  grid_mm_val (snd (mm_to_canvas_px x y px xo yo)) yo px == y.
Proof.
  intro Hpx. unfold grid_mm_val, mm_to_canvas_px. cbn [fst snd].
  split; field; exact Hpx.
Qed.

Lemma mm_to_canvas_px_round_trip_witness :
  grid_mm_val (fst (mm_to_canvas_px 100 250 (3 # 10) 21 21)) 21 (3 # 10) == 100 /\
  grid_mm_val (snd (mm_to_canvas_px 100 250 (3 # 10) 21 21)) 21 (3 # 10) == 250.
Proof.
  apply mm_to_canvas_px_round_trip. discriminate.
Defined.

Lemma fit_base_spec (cw ch m : Z) (W H : Q) :
  0 < W -> 0 < H ->
  0 < fit_base cw ch m W H /\
  fit_base cw ch m W H * W <= inject_Z (Z.max 1 (cw - 2 * m)) /\
  fit_base cw ch m W H * H <= inject_Z (Z.max 1 (ch - 2 * m)) /\
  (fit_base cw ch m W H * W == inject_Z (Z.max 1 (cw - 2 * m)) \/
   fit_base cw ch m W H * H == inject_Z (Z.max 1 (ch - 2 * m))).
Proof.
  intros HW HH. unfold fit_base.
  set (aw := inject_Z (Z.max 1 (cw - 2 * m))).
  set (ah := inject_Z (Z.max 1 (ch - 2 * m))).
  assert (Haw : 0 < aw) by apply usable_positive.
  assert (Hah : 0 < ah) by apply usable_positive.
  assert (Hrw : 0 < aw / W) by (apply Qlt_shift_div_l; lra).
  assert (Hrh : 0 < ah / H) by (apply Qlt_shift_div_l; lra).
  assert (Ew : aw / W * W == aw) by (field; lra).
  assert (Eh : ah / H * H == ah) by (field; lra).
  assert (Hmin : 0 < Qmin (aw / W) (ah / H)).
  { destruct (Q.min_spec (aw / W) (ah / H)) as [[_ E] | [_ E]]; rewrite E; assumption. }
  destruct (Qleb (Qmin (aw / W) (ah / H)) 0) eqn:E.
  { apply Qleb_le in E. exfalso. apply (Qlt_not_le _ _ Hmin E). }
  split; [exact Hmin|].
  destruct (Q.min_spec (aw / W) (ah / H)) as [[Hlt Emin] | [Hle Emin]]; rewrite Emin.
  - split; [rewrite Ew; apply Qle_refl|]. split; [|left; exact Ew].
    rewrite <- Eh. apply Qmult_le_compat_r; [apply Qlt_le_weak, Hlt | lra].
  - split; [|split; [rewrite Eh; apply Qle_refl | right; exact Eh]].
    rewrite <- Ew. apply Qmult_le_compat_r; [exact Hle | lra].
Qed.

Lemma inject_Z_sub (a b : Z) : inject_Z (a - b) == inject_Z a - inject_Z b.
Proof.
  unfold Z.sub. rewrite inject_Z_plus, inject_Z_opp. reflexivity.
Qed.

Lemma usable_extent (c : Z) :
  (49 <= c)%Z ->
  inject_Z (Z.max 1 (c - 2 * CANVAS_MARGIN_PX)) == inject_Z c - 48.
Proof.
  intro Hc. unfold CANVAS_MARGIN_PX.
  replace (Z.max 1 (c - 2 * 24)) with (c - 48)%Z by lia.
  apply inject_Z_sub.
Qed.

Lemma offsets_auto (s : app) :
  auto_fit_var s = true ->
  x_offset_of s = 24 - x0_mm (rect s) * scale_of s /\
  y_offset_of s = 24 - y0_mm (rect s) * scale_of s.
Proof.
  intro Ha. unfold x_offset_of, y_offset_of, scale_of, compute_px_per_mm_and_offset.
  rewrite Ha. split; reflexivity.
Qed.

(** The extents of the rectangle on the canvas in auto-fit mode. *)
Lemma auto_fit_extents (s : app) :
  auto_fit_var s = true ->
  0 < w_mm (rect s) -> 0 < h_mm (rect s) ->
  0 < zoom_var s -> zoom_var s <= 1 ->
  0 <= w_mm (rect s) * scale_of s /\
  w_mm (rect s) * scale_of s <=
    inject_Z (Z.max 1 (canvas_w s - 2 * CANVAS_MARGIN_PX)) /\
  0 <= h_mm (rect s) * scale_of s /\
  h_mm (rect s) * scale_of s <=
    inject_Z (Z.max 1 (canvas_h s - 2 * CANVAS_MARGIN_PX)).
Proof.
  intros Ha Hw Hh Hz0 Hz1.
  pose proof (scale_of_auto s Ha) as ES.
  set (W := Qmax (w_mm (rect s)) (1 # 1000000)) in *.
  set (H := Qmax (h_mm (rect s)) (1 # 1000000)) in *.
  assert (HwW : w_mm (rect s) <= W) by apply Q.le_max_l.
  assert (HhH : h_mm (rect s) <= H) by apply Q.le_max_l.
  destruct (fit_base_spec (canvas_w s) (canvas_h s) CANVAS_MARGIN_PX W H)
    as (HF & HFW & HFH & _); [lra | lra |].
  set (F := fit_base (canvas_w s) (canvas_h s) CANVAS_MARGIN_PX W H) in *.
  set (aw := inject_Z (Z.max 1 (canvas_w s - 2 * CANVAS_MARGIN_PX))) in *.
  set (ah := inject_Z (Z.max 1 (canvas_h s - 2 * CANVAS_MARGIN_PX))) in *.
  rewrite ES.
  assert (HFz : 0 < F * zoom_var s) by (apply Qmult_lt_0_compat; assumption).
  assert (HFz1 : F * zoom_var s <= F) by nra.
  repeat split; nra.
Qed.

(** In auto-fit mode with a zoom in (0, 1] and a canvas of at least 49 px
    each way, [redraw] paints every corner of the rectangle inside the
    canvas, at least the 24 px margin away from each border. *)
Theorem auto_fit_inside_margins (s : app) :
  auto_fit_var s = true ->
  0 < w_mm (rect s) -> 0 < h_mm (rect s) ->
  0 < zoom_var s -> zoom_var s <= 1 ->
  (49 <= canvas_w s)%Z -> (49 <= canvas_h s)%Z ->
  Forall (fun p => 24 <= fst p /\ fst p <= inject_Z (canvas_w s) - 24 /\
                   24 <= snd p /\ snd p <= inject_Z (canvas_h s) - 24)
         (redraw_polygon s).
Proof.
  intros Ha Hw Hh Hz0 Hz1 Hcw Hch.
  destruct (auto_fit_extents s Ha Hw Hh Hz0 Hz1) as (Hw0 & Hw1 & Hh0 & Hh1).
  rewrite (usable_extent _ Hcw) in Hw1. rewrite (usable_extent _ Hch) in Hh1.
  destruct (scale_positive_facts s Hz0) as (_ & Epx & _).
  destruct (offsets_auto s Ha) as [Ex Ey].
  unfold redraw_polygon. rewrite Epx, Ex, Ey.
  set (S := scale_of s) in *.
  repeat constructor; unfold mm_to_canvas_px; cbn [fst snd]; lra.
Qed.

Lemma auto_fit_inside_margins_witness :
  Forall (fun p => 24 <= fst p /\ fst p <= inject_Z (canvas_w init_app) - 24 /\
                   24 <= snd p /\ snd p <= inject_Z (canvas_h init_app) - 24)
         (redraw_polygon init_app).
Proof.
  apply auto_fit_inside_margins;
    try reflexivity; try discriminate.
Defined.

(** In auto-fit mode at zoom 1, a rectangle of at least 1e-6 mm each way
    fills the canvas minus the margins exactly in width or in height
    (and, by [auto_fit_inside_margins], does not exceed it in the
    other). *)
Theorem auto_fit_tight (s : app) :
  auto_fit_var s = true ->
  zoom_var s == 1 ->
  (1 # 1000000) <= w_mm (rect s) -> (1 # 1000000) <= h_mm (rect s) ->
  (49 <= canvas_w s)%Z -> (49 <= canvas_h s)%Z ->
  w_mm (rect s) * scale_of s == inject_Z (canvas_w s) - 48 \/
  h_mm (rect s) * scale_of s == inject_Z (canvas_h s) - 48.
Proof.
  intros Ha Hz Hw Hh Hcw Hch.
  pose proof (scale_of_auto s Ha) as ES.
  assert (EW : Qmax (w_mm (rect s)) (1 # 1000000) == w_mm (rect s))
    by (apply Q.max_l; exact Hw).
  assert (EH : Qmax (h_mm (rect s)) (1 # 1000000) == h_mm (rect s))
    by (apply Q.max_l; exact Hh).
  rewrite (fit_base_compat _ _ _ _ _ _ _ EW EH) in ES.
  destruct (fit_base_spec (canvas_w s) (canvas_h s) CANVAS_MARGIN_PX
              (w_mm (rect s)) (h_mm (rect s))) as (_ & _ & _ & Htight); [lra | lra |].
  rewrite (usable_extent _ Hcw), (usable_extent _ Hch) in Htight.
  rewrite ES, Hz.
  destruct Htight as [E | E]; [left | right]; rewrite <- E; ring.
Qed.

Lemma auto_fit_tight_witness :
  w_mm (rect init_app) * scale_of init_app == inject_Z (canvas_w init_app) - 48 \/
  h_mm (rect init_app) * scale_of init_app == inject_Z (canvas_h init_app) - 48.
Proof.
  apply auto_fit_tight;
    try reflexivity; try discriminate.
Defined.

Lemma redraw_normalises_facts (s : app) :
  redraw (redraw s) = redraw s /\
  fst (compute_px_per_mm_and_offset (redraw s)) =
    fst (compute_px_per_mm_and_offset s) /\
  (auto_fit_var s = false -> 0 < px_per_mm_var (redraw s)).
Proof.
  unfold redraw, compute_px_per_mm_and_offset.
  destruct s as [R cs d n ms px af z l c cw ch]. cbn -[Qmax Qmin Qleb Qdiv Qmult Qminus Qplus].
  destruct af.
  - cbn -[Qmax Qmin Qleb Qdiv Qmult Qminus Qplus].
    repeat split; discriminate.
  - destruct (Qleb px 0) eqn:E; cbn -[Qmax Qmin Qleb Qdiv Qmult Qminus Qplus].
    + repeat split.
    + rewrite E. cbn. repeat split. intros _. apply Qleb_gt, E.
Qed.

(** [redraw] normalises the state: a second [redraw] changes nothing, the
    transform computed after it is the one computed before it, and the
    manual scale it leaves is positive in manual mode. *)
Theorem redraw_normalises (s : app) :
  redraw (redraw s) = redraw s /\
  fst (compute_px_per_mm_and_offset (redraw s)) =
    fst (compute_px_per_mm_and_offset s) /\
  (auto_fit_var s = false -> 0 < px_per_mm_var (redraw s)).
Proof. exact (redraw_normalises_facts s). Qed.

Lemma redraw_normalises_witness :
  0 < px_per_mm_var (redraw (set_manual init_app (-3))).
Proof.
  destruct (redraw_normalises (set_manual init_app (-3))) as (_ & _ & H).
  apply H. reflexivity.
Defined.

(** ** Zoom as an operation on the view *)

Lemma redraw_frame (s : app) :
  rect (redraw s) = rect s /\ circles (redraw s) = circles s /\
  canvas_w (redraw s) = canvas_w s /\ canvas_h (redraw s) = canvas_h s /\
  auto_fit_var (redraw s) = auto_fit_var s /\
  circle_diam_var (redraw s) = circle_diam_var s /\
  circle_count_var (redraw s) = circle_count_var s /\
  circle_min_spacing_var (redraw s) = circle_min_spacing_var s /\
  zoom_var (redraw s) = zoom_var s.
Proof.
  destruct (redraw_cases s) as [-> | ->]; repeat split.
Qed.

Lemma zoom_frame_facts (ops : list zoom_op) (s : app) :
  rect (run_zoom_ops ops s) = rect s /\
  circles (run_zoom_ops ops s) = circles s /\
  canvas_w (run_zoom_ops ops s) = canvas_w s /\
  canvas_h (run_zoom_ops ops s) = canvas_h s /\
  auto_fit_var (run_zoom_ops ops s) = auto_fit_var s /\
  circle_diam_var (run_zoom_ops ops s) = circle_diam_var s /\
  circle_count_var (run_zoom_ops ops s) = circle_count_var s /\
  circle_min_spacing_var (run_zoom_ops ops s) = circle_min_spacing_var s.
Proof.
  revert s. unfold run_zoom_ops.
  induction ops as [|op ops IH]; intro s; cbn [fold_left].
  - repeat split.
  - destruct (IH (run_zoom_op s op)) as (H1 & H2 & H3 & H4 & H5 & H6 & H7 & H8).
    rewrite H1, H2, H3, H4, H5, H6, H7, H8.
    destruct op; cbn [run_zoom_op]; unfold zoom_in, zoom_out, zoom_reset;
      match goal with
      | |- context [redraw ?t] =>
          destruct (redraw_frame t) as (E1 & E2 & E3 & E4 & E5 & E6 & E7 & E8 & _);
          rewrite E1, E2, E3, E4, E5, E6, E7, E8
      end; repeat split.
Qed.

(** No sequence of zoom operations touches the rectangle, the circles,
    the canvas size, the fit mode or the circle request. *)
Theorem zoom_frame (ops : list zoom_op) (s : app) :
  rect (run_zoom_ops ops s) = rect s /\
  circles (run_zoom_ops ops s) = circles s /\
  canvas_w (run_zoom_ops ops s) = canvas_w s /\
  canvas_h (run_zoom_ops ops s) = canvas_h s /\
  auto_fit_var (run_zoom_ops ops s) = auto_fit_var s /\
  circle_diam_var (run_zoom_ops ops s) = circle_diam_var s /\
  circle_count_var (run_zoom_ops ops s) = circle_count_var s /\
  circle_min_spacing_var (run_zoom_ops ops s) = circle_min_spacing_var s.
Proof. exact (zoom_frame_facts ops s). Qed.

(** Away from the two bounds zooming in and zooming out undo each other:
    [zoom_out] after [zoom_in] restores a zoom of at most 10/1.2, and
    [zoom_in] after [zoom_out] restores a zoom of at least 0.05 * 1.2. *)
Theorem zoom_in_out_round_trip (s : app) :
  in_zoom_range (zoom_var s) ->
  (zoom_var s * (12 # 10) <= 10 -> zoom_var (zoom_out (zoom_in s)) == zoom_var s) /\
  ((5 # 100) <= zoom_var s / (12 # 10) -> zoom_var (zoom_in (zoom_out s)) == zoom_var s).
Proof.
  intros [Hlo Hhi]. split; intro Hb.
  - rewrite zoom_out_var, zoom_in_var.
    rewrite (Q.min_l _ _ Hb).
    assert (E : zoom_var s * (12 # 10) / (12 # 10) == zoom_var s) by (field; discriminate).
    rewrite E. apply Q.max_l. exact Hlo.
  - rewrite zoom_in_var, zoom_out_var.
    rewrite (Q.max_l _ _ Hb).
    assert (E : zoom_var s / (12 # 10) * (12 # 10) == zoom_var s) by (field; discriminate).
    rewrite E. apply Q.min_l. exact Hhi.
Qed.

Lemma zoom_in_out_round_trip_witness :
  zoom_var (zoom_out (zoom_in init_app)) == zoom_var init_app /\
  zoom_var (zoom_in (zoom_out init_app)) == zoom_var init_app.
Proof.
  destruct (zoom_in_out_round_trip init_app) as [H1 H2].
  - split; discriminate.
  - split; [apply H1 | apply H2]; discriminate.
Defined.

Lemma scale_of_set_zoom (s : app) (z : Q) :
  scale_of (set_zoom s z) == scale_of (set_zoom s 1) * z.
Proof.
  unfold scale_of, compute_px_per_mm_and_offset, set_zoom.
  cbn [zoom_var rect auto_fit_var px_per_mm_var canvas_w canvas_h].
  destruct (auto_fit_var s); cbn [fst].
  - ring.
  - destruct (Qleb (px_per_mm_var s) 0); cbn [fst]; ring.
Qed.

Lemma scale_of_redraw (s : app) : scale_of (redraw s) = scale_of s.
Proof.
  unfold scale_of. destruct (redraw_normalises_facts s) as (_ & -> & _). reflexivity.
Qed.

Lemma set_zoom_same (s : app) : set_zoom s (zoom_var s) = s.
Proof. destruct s. reflexivity. Qed.

Lemma set_zoom_twice (s : app) (z1 z2 : Q) : set_zoom (set_zoom s z1) z2 = set_zoom s z2.
Proof. reflexivity. Qed.

(** The effective scale follows the zoom: in both fit modes a zoom step
    that is not cut off by a bound multiplies, respectively divides, the
    effective scale by 1.2, and [zoom_reset] makes it the scale of
    zoom 1. *)
Theorem zoom_scales_view (s : app) :
  (zoom_var s * (12 # 10) <= 10 ->
   scale_of (zoom_in s) == scale_of s * (12 # 10)) /\
  ((5 # 100) <= zoom_var s / (12 # 10) ->
   scale_of (zoom_out s) == scale_of s / (12 # 10)) /\
  scale_of (zoom_reset s) * zoom_var s == scale_of s.
Proof.
  pose proof (scale_of_set_zoom s (zoom_var s)) as Es.
  rewrite set_zoom_same in Es.
  split; [|split].
  - intro Hb. unfold zoom_in. rewrite scale_of_redraw, scale_of_set_zoom.
    rewrite (Q.min_l _ _ Hb), Es. ring.
  - intro Hb. unfold zoom_out. rewrite scale_of_redraw, scale_of_set_zoom.
    rewrite (Q.max_l _ _ Hb), Es. field.
  - unfold zoom_reset. rewrite scale_of_redraw, Es. reflexivity.
Qed.

Lemma zoom_scales_view_witness :
  scale_of (zoom_in init_app) == scale_of init_app * (12 # 10) /\
  scale_of (zoom_out init_app) == scale_of init_app / (12 # 10).
Proof.
  destruct (zoom_scales_view init_app) as (H1 & H2 & _).
  split; [apply H1 | apply H2]; discriminate.
Defined.

(** ** More on placement *)

(** A request with a non-positive diameter or count, or a negative
    spacing, is refused: error box, state unchanged, no sample read. *)
Theorem add_random_circles_rejects_invalid (rng : nat -> Q) (s : app) (i : nat) :
  circle_diam_var s <= 0 \/ (circle_count_var s <= 0)%Z \/
  circle_min_spacing_var s < 0 ->
  add_random_circles rng s i = (s, [InvalidInput], i).
Proof.
  intro Hbad.
  destruct (add_random_circles_cases rng s i) as [[_ E] | [(Hv & _) | (Hv & _)]];
    [exact E | |];
    destruct Hv as (Hd & Hc & Hm); destruct Hbad as [H | [H | H]]; try lia;
    exfalso; lra.
Qed.

Lemma add_random_circles_rejects_invalid_witness :
  add_random_circles keep_rng (set_request keep_app 100 0 20) 0 =
    (set_request keep_app 100 0 20, [InvalidInput], 0%nat).
Proof.
  apply add_random_circles_rejects_invalid. right. left. discriminate.
Defined.

Lemma add_attempts_first (rng : nat -> Q) (fuel : nat) (R : rectangle)
    (diam r ms : Q) (existing new_circles : list circle) (i : nat) :
  accepted rng R r ms (existing ++ new_circles) i = true ->
  add_attempts rng (S fuel) R diam r ms existing new_circles i =
    (Some (candidate rng R diam r ms i), (2 + i)%nat).
Proof.
  unfold accepted. rewrite check_ok_app, andb_true_iff. intros [E1 E2].
  cbn [add_attempts]. rewrite E1, E2. reflexivity.
Qed.

(** Into an empty collection a valid, feasible request always places at
    least one circle: the first candidate drawn is kept, as there is
    nothing it could be too close to. *)
Theorem add_random_circles_first_circle (rng : nat -> Q) (s : app) (i : nat) :
  valid_request s -> feasible s -> circles s = [] ->
  exists rest,
    circles (state_after (add_random_circles rng s i)) =
      candidate rng (rect s) (circle_diam_var s) (circle_diam_var s / 2)
        (circle_min_spacing_var s) i :: rest.
Proof.
  intros Hv Hf He. unfold add_random_circles.
  rewrite (proj2 (valid_request_guard s) Hv), (proj2 (feasible_guard s) Hf).
  destruct Hv as (_ & Hc & _).
  destruct (Z.to_nat (circle_count_var s)) as [|n] eqn:En; [lia|].
  cbn [add_loop]. change 600%nat with (S 599).
  rewrite add_attempts_first by (rewrite He; reflexivity).
  pose proof (add_loop_policy rng (rect s) (circle_diam_var s)
                (circle_min_spacing_var s) (circles s) n
                ([] ++ [candidate rng (rect s) (circle_diam_var s)
                          (circle_diam_var s / 2) (circle_min_spacing_var s) i])
                1 (2 + i)) as H.
  destruct (add_loop rng n _ _ _ _ _ _ _ _) as [[final placed] i'].
  destruct H as [Hpol _].
  destruct (place_policy_extends rng _ _ _ _ _ _ _ _ _ Hpol) as (extra & -> & _).
  exists extra. unfold state_after. cbn [fst]. rewrite redraw_circles.
  cbn [circles set_circles]. rewrite He. reflexivity.
Qed.

Lemma add_random_circles_first_circle_witness :
  exists rest,
    circles (state_after (add_random_circles keep_rng init_app 0)) =
      candidate keep_rng (rect init_app) (circle_diam_var init_app)
        (circle_diam_var init_app / 2) (circle_min_spacing_var init_app) 0 :: rest.
Proof.
  apply add_random_circles_first_circle.
  - split; [reflexivity | split; [reflexivity | discriminate]].
  - split; reflexivity.
  - reflexivity.
Defined.

Lemma separated_weaken (m ms : Q) (a b : circle) :
  m <= ms -> separated ms a b -> separated m a b.
Proof.
  unfold separated. intros Hm H.
  assert (Hle : (Q2R (radius a + radius b + m) <= Q2R (radius a + radius b + ms))%R).
  { apply Qle_Rle. lra. }
  lra.
Qed.

Lemma place_policy_separated_weak rng R diam ms existing n new i final i' (m : Q) :
  m <= ms ->
  place_policy rng R diam ms existing n new i final i' ->
  all_separated m (existing ++ new) -> all_separated m (existing ++ final).
Proof.
  intro Hm.
  induction 1 as [new i | n new i k final i' (_ & _ & Hacc) _ IH | n new i Hex];
    intro Hsep; try exact Hsep.
  apply IH. rewrite app_assoc. apply all_separated_snoc; [exact Hsep|].
  apply accepted_separated in Hacc.
  eapply Forall_impl; [|exact Hacc]. intros c. apply separated_weaken, Hm.
Qed.

Lemma add_random_circles_separated_weak (rng : nat -> Q) (s : app) (i : nat) (m : Q) :
  m <= circle_min_spacing_var s ->
  all_separated m (circles s) ->
  all_separated m (circles (state_after (add_random_circles rng s i))).
Proof.
  intros Hm Hsep.
  destruct (add_random_circles_cases rng s i) as [[_ ->] | [(_ & _ & ->) | [Hv Hf]]];
    try exact Hsep.
  destruct (add_random_circles_run rng s i Hv Hf) as (new & i' & Hpol & ->).
  unfold state_after. cbn [fst]. rewrite redraw_circles. cbn [circles set_circles].
  eapply place_policy_separated_weak; [exact Hm | exact Hpol |].
  rewrite app_nil_r. exact Hsep.
Qed.

(** Spacing over a series of requests: when the collection keeps a
    spacing [m] and every request of the series asks for a spacing of at
    least [m], the collection still keeps [m] after the whole series,
    whatever diameters and counts were asked for. *)
Theorem add_requests_keep_spacing (rng : nat -> Q) (reqs : list (Q * Z * Q))
    (s : app) (i : nat) (m : Q) :
  Forall (fun r => m <= snd r) reqs ->
  all_separated m (circles s) ->
  all_separated m (circles (fst (add_requests rng reqs s i))).
Proof.
  revert s i. induction reqs as [|[[diam count] ms] reqs IH]; intros s i Hreqs Hsep.
  - exact Hsep.
  - inversion Hreqs as [|? ? Hm Hrest]; subst. cbn [snd] in Hm.
    cbn [add_requests].
    pose proof (add_random_circles_separated_weak rng
                  (set_request s diam count ms) i m Hm Hsep) as H.
    destruct (add_random_circles rng (set_request s diam count ms) i)
      as [[s' msgs] i'].
    apply IH; [exact Hrest | exact H].
Qed.

Lemma add_requests_keep_spacing_witness :
  all_separated 10
    (circles (fst (add_requests keep_rng [(100, 1%Z, 20); (60, 1%Z, 10)] init_app 0))).
Proof.
  apply add_requests_keep_spacing.
  - repeat constructor; discriminate.
  - constructor.
Defined.

(** ** More on repacking *)

Lemma subseq_full {A : Type} (l1 l2 : list A) :
  subseq l1 l2 -> (length l2 <= length l1)%nat -> l1 = l2.
Proof.
  induction 1 as [|x l1 l2 Hs IH|x l1 l2 Hs IH]; cbn [length]; intro Hlen.
  - reflexivity.
  - apply subseq_length in Hs. lia.
  - f_equal. apply IH. lia.
Qed.

Lemma subseq_descending (l1 l2 : list Q) :
  subseq l1 l2 -> descending l2 -> descending l1.
Proof.
  unfold descending.
  induction 1 as [|x l1 l2 Hs IH|x l1 l2 Hs IH]; intro Hd.
  - constructor.
  - inversion Hd; subst. apply IH. assumption.
  - inversion Hd as [|? ? Hl Hx]; subst. constructor; [apply IH, Hl|].
    rewrite Forall_forall in *. intros y Hy. apply Hx.
    eapply subseq_In; eassumption.
Qed.

(** [mix_circles] leaves the circles ordered by descending diameter; and
    when it shows no warning, the diameters it leaves are exactly the
    previous ones, sorted. *)
Theorem mix_circles_diameters (rng : nat -> Q) (s : app) (i : nat) :
  descending (map d_mm (circles (state_after (mix_circles rng s i)))) /\
  (snd (fst (mix_circles rng s i)) = [] ->
   map d_mm (circles (state_after (mix_circles rng s i))) =
     sort_desc (map d_mm (circles s)) /\
   Permutation (map d_mm (circles (state_after (mix_circles rng s i))))
               (map d_mm (circles s))).
Proof.
  destruct (circles s) as [|c cs] eqn:E.
  - rewrite (mix_circles_nil rng s i E). unfold state_after. cbn [fst snd].
    rewrite E. split; [constructor|]. intros _. split; [reflexivity | constructor].
  - assert (Hne : circles s <> []) by congruence.
    destruct (mix_circles_run rng s i Hne) as (final & i' & Hpol & ->).
    unfold state_after. cbn [fst snd]. rewrite redraw_circles.
    cbn [circles set_circles]. rewrite E in *.
    destruct (mix_policy_extends rng _ _ _ _ _ _ _ Hpol) as (extra & Hx & Hsub).
    cbn [Datatypes.app] in Hx. subst extra.
    split; [eapply subseq_descending; [exact Hsub | apply sort_desc_sorted]|].
    unfold mix_notice. intro Hmsg.
    destruct (Nat.ltb_spec (length final) (length (c :: cs))) as [Hlt | Hge];
      [discriminate|].
    assert (Eq : map d_mm final = sort_desc (map d_mm (c :: cs))).
    { apply subseq_full; [exact Hsub|].
      rewrite (Permutation_length (sort_desc_perm _)), !length_map. exact Hge. }
    split; [exact Eq | rewrite Eq; apply sort_desc_perm].
Qed.

Lemma mix_circles_diameters_witness :
  map d_mm (circles (state_after (mix_circles keep_rng keep_app 0))) =
    sort_desc (map d_mm (circles keep_app)) /\
  Permutation (map d_mm (circles (state_after (mix_circles keep_rng keep_app 0))))
              (map d_mm (circles keep_app)).
Proof.
  destruct (mix_circles_diameters keep_rng keep_app 0) as [_ H].
  apply H. vm_compute. reflexivity.
Defined.

Lemma mix_attempts_first (rng : nat -> Q) (fuel : nat) (R : rectangle)
    (diam r ms : Q) (i : nat) :
  mix_attempts rng (S fuel) R diam r ms [] i =
    (Some (candidate rng R diam r ms i), (2 + i)%nat).
Proof. reflexivity. Qed.

Lemma mix_loop_infeasible (rng : nat -> Q) (ds : list Q) (R : rectangle) (ms : Q)
    (new : list circle) (placed i : nat) :
  Forall (fun d => no_room R (d / 2) ms = true) ds ->
  mix_loop rng ds R ms new placed i = (new, placed, i).
Proof.
  induction 1 as [|d ds Hd _ IH]; cbn [mix_loop]; [reflexivity|].
  rewrite Hd. exact IH.
Qed.

Lemma mix_loop_progress (rng : nat -> Q) (ds : list Q) (R : rectangle) (ms : Q)
    (placed i : nat) :
  Exists (fun d => no_room R (d / 2) ms = false) ds ->
  fst (fst (mix_loop rng ds R ms [] placed i)) <> [].
Proof.
  induction ds as [|d ds IH]; intro Hex; [inversion Hex|].
  cbn [mix_loop].
  destruct (no_room R (d / 2) ms) eqn:Hroom.
  - apply IH. inversion Hex as [? ? Hd | ? ? Hd]; subst; [congruence | exact Hd].
  - change 800%nat with (S 799). rewrite mix_attempts_first.
    pose proof (mix_loop_policy rng R ms ds
                  ([] ++ [candidate rng R d (d / 2) ms i]) (S placed) (2 + i)) as H.
    destruct (mix_loop rng ds R ms _ (S placed) (2 + i)) as [[final placed'] i'].
    destruct H as [Hpol _].
    destruct (mix_policy_extends rng _ _ _ _ _ _ _ Hpol) as (extra & -> & _).
    cbn [fst Datatypes.app]. discriminate.
Qed.

(** [mix_circles] empties a non-empty collection exactly when no circle
    of it has room in the rectangle any more; it then reads no sample.
    As soon as one diameter has room, at least one circle is placed. *)
Theorem mix_circles_empties (rng : nat -> Q) (s : app) (i : nat) :
  circles s <> [] ->
  (circles (state_after (mix_circles rng s i)) = [] <->
   Forall (fun c => no_room (rect s) (d_mm c / 2) (circle_min_spacing_var s) = true)
          (circles s)) /\
  (Forall (fun c => no_room (rect s) (d_mm c / 2) (circle_min_spacing_var s) = true)
          (circles s) ->
   mix_circles rng s i =
     (redraw (set_circles s []), [MixLimited (length (circles s)) 0], i)).
Proof.
  intro Hne.
  assert (Hall : Forall (fun c => no_room (rect s) (d_mm c / 2)
                                    (circle_min_spacing_var s) = true) (circles s) ->
                 Forall (fun d => no_room (rect s) (d / 2)
                                    (circle_min_spacing_var s) = true)
                        (sort_desc (map d_mm (circles s)))).
  { intro H. apply Forall_forall. intros d Hd.
    apply (Permutation_in _ (sort_desc_perm _)) in Hd.
    apply in_map_iff in Hd. destruct Hd as (c & <- & Hc).
    rewrite Forall_forall in H. apply H, Hc. }
  assert (Hrun : Forall (fun c => no_room (rect s) (d_mm c / 2)
                                    (circle_min_spacing_var s) = true) (circles s) ->
                 mix_circles rng s i =
                   (redraw (set_circles s []), [MixLimited (length (circles s)) 0], i)).
  { intro H. unfold mix_circles.
    destruct (circles s) as [|c cs] eqn:E; [congruence|].
    rewrite (mix_loop_infeasible rng _ _ _ [] 0%nat i (Hall H)). reflexivity. }
  split; [|exact Hrun]. split.
  - intro Hempty.
    apply Forall_forall. intros c Hc.
    destruct (no_room (rect s) (d_mm c / 2) (circle_min_spacing_var s)) eqn:Hroom;
      [reflexivity|]. exfalso.
    assert (Hex : Exists (fun d => no_room (rect s) (d / 2)
                                     (circle_min_spacing_var s) = false)
                         (sort_desc (map d_mm (circles s)))).
    { apply Exists_exists. exists (d_mm c). split; [|exact Hroom].
      apply (Permutation_in _ (Permutation_sym (sort_desc_perm _))).
      apply in_map, Hc. }
    pose proof (mix_loop_progress rng _ (rect s) (circle_min_spacing_var s) 0%nat i Hex)
      as Hprog.
    apply Hprog. revert Hempty. unfold mix_circles.
    destruct (circles s) as [|c0 cs] eqn:E; [congruence|].
    destruct (mix_loop rng _ _ _ _ _ _) as [[final placed] i'].
    unfold state_after. cbn [fst]. rewrite redraw_circles. cbn [circles set_circles].
    intro H; exact H.
  - intro H. rewrite (Hrun H). unfold state_after. cbn [fst].
    rewrite redraw_circles. reflexivity.
Qed.

Lemma mix_circles_empties_witness :
  mix_circles keep_rng (set_rect keep_app (mkRect 0 0 120 120)) 0 =
    (redraw (set_circles (set_rect keep_app (mkRect 0 0 120 120)) []),
     [MixLimited (length (circles (set_rect keep_app (mkRect 0 0 120 120)))) 0], 0%nat).
Proof.
  destruct (mix_circles_empties keep_rng (set_rect keep_app (mkRect 0 0 120 120)) 0)
    as [_ H].
  - discriminate.
  - apply H. repeat constructor.
Defined.

(** ** Export and the model *)






Lemma save_dxf_frame_facts (s : app) (path : option string) :
  rect (fst (save_dxf s path)) = rect s /\
  circles (fst (save_dxf s path)) = circles s /\
  zoom_var (fst (save_dxf s path)) = zoom_var s /\
  canvas_w (fst (save_dxf s path)) = canvas_w s /\
  canvas_h (fst (save_dxf s path)) = canvas_h s /\
  match path with
  | None => save_dxf s path = (s, None)
  | Some _ =>
      exists poly circs,
        snd (save_dxf s path) = Some (poly :: circs) /\
        length circs = length (circles s)
  end.
Proof.
  destruct path as [p|].
  - rewrite save_dxf_entities. cbn [fst snd].
    destruct (redraw_frame s) as (E1 & E2 & E3 & E4 & _ & _ & _ & _ & E5).
    rewrite E1, E2, E3, E4, E5. repeat split.
    unfold dxf_entities. eexists. eexists. split; [reflexivity|].
    apply length_map.
  - cbn [save_dxf fst]. repeat split.
Qed.

Lemma save_dxf_sink_cases (sink : dxf_sink) (s : app) (path : string) :
  let H := canvas_h_mm_of (canvas_h s) (scale_of s) in
  let doc := dxf_entities (rect s) (circles s) H (layer_name_of s) (color_of s) in
  (path = ""%string /\ save_dxf_sink sink s path = (s, SaveCancelled)) \/
  (path <> ""%string /\
   layer_accepted sink (layer_name_of s) (color_of s) = false /\
   save_dxf_sink sink s path = (s, SaveError)) \/
  (path <> ""%string /\
   layer_accepted sink (layer_name_of s) (color_of s) = true /\
   write_accepted sink path doc = false /\
   save_dxf_sink sink s path = (redraw s, SaveError)) \/
  (path <> ""%string /\
   layer_accepted sink (layer_name_of s) (color_of s) = true /\
   write_accepted sink path doc = true /\
   save_dxf_sink sink s path = (redraw s, Saved path doc)).
Proof.
  cbv zeta. unfold save_dxf_sink, layer_name_of, color_of, scale_of.
  destruct (String.eqb_spec path "") as [Ep | Ep]; [left; split; [exact Ep | reflexivity]|].
  right.
  destruct (layer_accepted sink _ _) eqn:El; cbn [negb];
    [|left; repeat split; assumption].
  right.
  pose proof (redraw_circles s) as Hc. pose proof (redraw_canvas_h s) as Hh.
  unfold redraw in *.
  destruct (compute_px_per_mm_and_offset s) as [[[scale xoff] yoff] s'].
  cbn [fst snd] in *. rewrite Hc, Hh.
  destruct (write_accepted sink path _) eqn:Ew; [right | left]; repeat split; assumption.
Qed.

(** [save_dxf] is [save_dxf_sink] on a non-empty path with a sink that
    accepts the layer and the write. *)
Lemma save_dxf_sink_saved (sink : dxf_sink) (s : app) (path : string) :
  path <> ""%string ->
  layer_accepted sink (layer_name_of s) (color_of s) = true ->
  (forall d, write_accepted sink path d = true) ->
  exists doc,
    save_dxf s (Some path) = (fst (save_dxf_sink sink s path), Some doc) /\
    snd (save_dxf_sink sink s path) = Saved path doc.
Proof.
  intros Hp Hl Hw. rewrite save_dxf_entities.
  destruct (save_dxf_sink_cases sink s path)
    as [(Hp' & _) | [(_ & Hl' & _) | [(_ & _ & Hw' & _) | (_ & _ & _ & ->)]]].
  - contradiction.
  - congruence.
  - rewrite Hw in Hw'. discriminate.
  - eexists. split; reflexivity.
Qed.

(** [save_dxf] never changes the model, however it ends: the rectangle,
    the circles, the zoom and the canvas size are the same after it.  A
    cancelled dialog (empty path) changes nothing at all and writes
    nothing; a refused layer ends with the error box, nothing written and
    the state unchanged; and the document is saved exactly when the path
    is not empty and the sink accepts the layer and the write, in which
    case it is the closed polyline of the four flipped corners followed by
    one circle entity per circle of the collection, in order, for
    [canvas_h_mm] the canvas height over the effective scale. *)
Theorem save_dxf_frame (sink : dxf_sink) (s : app) (path : string) :
  let H := canvas_h_mm_of (canvas_h s) (scale_of s) in
  let doc :=
    LwPolyline [(x0_mm (rect s), H - y0_mm (rect s));
                (x0_mm (rect s) + w_mm (rect s), H - y0_mm (rect s));
                (x0_mm (rect s) + w_mm (rect s), H - (y0_mm (rect s) + h_mm (rect s)));
                (x0_mm (rect s), H - (y0_mm (rect s) + h_mm (rect s)))]
               true (layer_name_of s) (color_of s)
    :: map (fun c => Circle (cx_mm c, H - cy_mm c) (d_mm c / 2)
                            (layer_name_of s) (color_of s))
           (circles s) in
  (rect (fst (save_dxf_sink sink s path)) = rect s /\
   circles (fst (save_dxf_sink sink s path)) = circles s /\
   zoom_var (fst (save_dxf_sink sink s path)) = zoom_var s /\
   canvas_w (fst (save_dxf_sink sink s path)) = canvas_w s /\
   canvas_h (fst (save_dxf_sink sink s path)) = canvas_h s) /\
  (path = ""%string -> save_dxf_sink sink s path = (s, SaveCancelled)) /\
  (path <> ""%string ->
   layer_accepted sink (layer_name_of s) (color_of s) = false ->
   save_dxf_sink sink s path = (s, SaveError)) /\
  (forall p d, snd (save_dxf_sink sink s path) = Saved p d <->
     p = path /\ d = doc /\ path <> ""%string /\
     layer_accepted sink (layer_name_of s) (color_of s) = true /\
     write_accepted sink path doc = true) /\
  (forall p d, snd (save_dxf_sink sink s path) = Saved p d ->
     fst (save_dxf_sink sink s path) = redraw s).
Proof.
  cbv zeta.
  change (LwPolyline _ true (layer_name_of s) (color_of s) :: map _ (circles s))
    with (dxf_entities (rect s) (circles s)
            (canvas_h_mm_of (canvas_h s) (scale_of s)) (layer_name_of s) (color_of s)).
  set (doc := dxf_entities (rect s) (circles s)
                (canvas_h_mm_of (canvas_h s) (scale_of s)) (layer_name_of s) (color_of s)).
  destruct (redraw_frame s) as (E1 & E2 & E3 & E4 & _ & _ & _ & _ & E5).
  destruct (save_dxf_sink_cases sink s path)
    as [(Hp & ->) | [(Hp & Hl & ->) | [(Hp & Hl & Hw & ->) | (Hp & Hl & Hw & ->)]]];
    fold doc in Hw || idtac; cbn [fst snd].
  - repeat split; try congruence; try discriminate.
    intros (_ & _ & Hne & _). congruence.
  - repeat split; try congruence; try discriminate.
    intros (_ & _ & _ & Hl' & _). congruence.
  - rewrite E1, E2, E3, E4, E5. repeat split; try congruence; try discriminate.
    intros (_ & _ & _ & _ & Hw'). congruence.
  - rewrite E1, E2, E3, E4, E5.
    split; [repeat split|]. split; [congruence|]. split; [congruence|].
    split; [|intros; reflexivity].
    intros p d. split.
    + intro H. injection H as <- <-. repeat split; assumption.
    + intros (-> & -> & _). reflexivity.
Qed.

Lemma save_dxf_frame_witness :
  save_dxf_sink willing_sink export_app "" = (export_app, SaveCancelled) /\
  save_dxf_sink layerless_sink export_app "plate.dxf" = (export_app, SaveError) /\
  exists d, snd (save_dxf_sink willing_sink export_app "plate.dxf") = Saved "plate.dxf" d.
Proof.
  destruct (save_dxf_frame willing_sink export_app "") as (_ & H1 & _).
  destruct (save_dxf_frame layerless_sink export_app "plate.dxf") as (_ & _ & H2 & _).
  destruct (save_dxf_frame willing_sink export_app "plate.dxf") as (_ & _ & _ & H3 & _).
  split; [apply H1; reflexivity|].
  split; [apply H2; [discriminate | reflexivity]|].
  eexists. apply H3.
  split; [reflexivity|]. split; [reflexivity|].
  split; [discriminate|]. split; reflexivity.
Defined.

(** ** The handlers of the rectangle *)

(** [on_update_shape] replaces the rectangle exactly when both extents
    are positive, and shows an error and changes nothing otherwise.  It
    never touches the circles: they stay where they are, in or out of
    the new rectangle. *)
Theorem on_update_shape_behaviour (s : app) (x0 y0 w h : Q) :
  (w <= 0 \/ h <= 0 -> on_update_shape s x0 y0 w h = (s, [InvalidInput])) /\
  (0 < w -> 0 < h ->
   rect (fst (on_update_shape s x0 y0 w h)) = mkRect x0 y0 w h /\
   snd (on_update_shape s x0 y0 w h) = []) /\
  circles (fst (on_update_shape s x0 y0 w h)) = circles s /\
  zoom_var (fst (on_update_shape s x0 y0 w h)) = zoom_var s.
Proof.
  unfold on_update_shape.
  destruct (Qleb w 0 || Qleb h 0) eqn:E.
  - apply orb_true_iff in E. rewrite !Qleb_le in E.
    split; [reflexivity|]. split; [|split; reflexivity].
    intros Hw Hh. exfalso. destruct E as [E | E]; lra.
  - apply orb_false_iff in E. rewrite !Qleb_gt in E. destruct E as [Hw Hh].
    split; [intros [H | H]; exfalso; lra|].
    cbn [fst snd]. rewrite redraw_rect, redraw_circles, redraw_zoom.
    repeat split.
Qed.

Lemma on_update_shape_behaviour_witness :
  on_update_shape keep_app 0 0 (-5) 100 = (keep_app, [InvalidInput]) /\
  rect (fst (on_update_shape keep_app 0 0 50 60)) = mkRect 0 0 50 60.
Proof.
  destruct (on_update_shape_behaviour keep_app 0 0 (-5) 100) as (H1 & _).
  destruct (on_update_shape_behaviour keep_app 0 0 50 60) as (_ & H2 & _).
  split.
  - apply H1. left. discriminate.
  - apply H2; reflexivity.
Defined.

(** [reset_default] brings back the state of a fresh window, whatever the
    state was, except for the canvas size and the layer and colour of the
    export, which it keeps; resetting twice is resetting once. *)
Theorem reset_default_restores (s : app) :
  reset_default s =
    mkApp (mkRect 10 10 800 2000) [] 100 5 20 3 true 1
          (layer_var s) (color_var s) (canvas_w s) (canvas_h s) /\
  reset_default (reset_default s) = reset_default s /\
  reset_default init_app = init_app.
Proof.
  assert (E : forall t, reset_default t =
                mkApp (mkRect 10 10 800 2000) [] 100 5 20 3 true 1
                      (layer_var t) (color_var t) (canvas_w t) (canvas_h t)).
  { intro t. reflexivity. }
  split; [apply E|]. split; [|reflexivity].
  rewrite (E (reset_default s)), (E s). reflexivity.
Qed.

(** ** The application as a machine *)

Lemma app_inv_ext (s t : app) :
  rect t = rect s -> zoom_var t = zoom_var s ->
  canvas_w t = canvas_w s -> canvas_h t = canvas_h s ->
  circles t = circles s ->
  app_inv s -> app_inv t.
Proof.
  unfold app_inv. intros -> -> -> -> ->. exact (fun H => H).
Qed.

Lemma app_inv_redraw (s : app) : app_inv s -> app_inv (redraw s).
Proof.
  destruct (redraw_frame s) as (E1 & E2 & E3 & E4 & _ & _ & _ & _ & E5).
  apply app_inv_ext; assumption.
Qed.

Lemma app_inv_circles (s : app) (cs : list circle) :
  app_inv s -> Forall (fun c => 0 < d_mm c) cs -> app_inv (set_circles s cs).
Proof.
  unfold app_inv. cbn [set_circles rect zoom_var canvas_w canvas_h circles].
  intros (H1 & H2 & H3 & H4 & H5 & _) Hcs. repeat split; assumption || apply H3.
Qed.

Lemma app_inv_add (rng : nat -> Q) (s : app) (i : nat) :
  app_inv s -> app_inv (state_after (add_random_circles rng s i)).
Proof.
  intro Hinv.
  destruct (add_random_circles_cases rng s i) as [[_ ->] | [(_ & _ & ->) | [Hv Hf]]];
    try exact Hinv.
  destruct (add_random_circles_run rng s i Hv Hf) as (new & i' & Hpol & ->).
  unfold state_after. cbn [fst]. apply app_inv_redraw, app_inv_circles; [exact Hinv|].
  destruct (place_policy_extends rng _ _ _ _ _ _ _ _ _ Hpol) as (extra & E & _ & Hd).
  cbn [Datatypes.app] in E. subst extra.
  apply Forall_app. split; [apply Hinv|].
  eapply Forall_impl; [|exact Hd]. intros c ->. apply Hv.
Qed.

Lemma app_inv_mix (rng : nat -> Q) (s : app) (i : nat) :
  app_inv s -> app_inv (state_after (mix_circles rng s i)).
Proof.
  intro Hinv.
  destruct (circles s) as [|c cs] eqn:E.
  - rewrite (mix_circles_nil rng s i E). exact Hinv.
  - assert (Hne : circles s <> []) by congruence.
    destruct (mix_circles_run rng s i Hne) as (final & i' & Hpol & ->).
    unfold state_after. cbn [fst]. apply app_inv_redraw, app_inv_circles; [exact Hinv|].
    destruct (mix_policy_extends rng _ _ _ _ _ _ _ Hpol) as (extra & Ex & Hsub).
    cbn [Datatypes.app] in Ex. subst extra.
    apply Forall_forall. intros x Hx.
    assert (Hd : In (d_mm x) (map d_mm (circles s))).
    { apply (Permutation_in _ (sort_desc_perm _)).
      eapply subseq_In; [exact Hsub | apply in_map, Hx]. }
    apply in_map_iff in Hd. destruct Hd as (y & Ey & Hy). rewrite <- Ey.
    destruct Hinv as (_ & _ & _ & _ & _ & Hcs).
    rewrite Forall_forall in Hcs. apply Hcs, Hy.
Qed.

Lemma app_inv_handle (rng : nat -> Q) (s : app) (i : nat) (e : event) :
  app_inv s -> app_inv (fst (handle rng (s, i) e)).
Proof.
  intro Hinv. destruct e; cbn [handle].
  - cbn [fst].
    destruct (zoom_frame_facts [op] s) as (E1 & E2 & E3 & E4 & _).
    change (run_zoom_ops [op] s) with (run_zoom_op s op) in E1, E2, E3, E4.
    destruct Hinv as (H1 & H2 & H3 & H4 & H5 & H6).
    unfold app_inv. rewrite E1, E2, E3, E4.
    split; [exact H1|]. split; [exact H2|].
    split; [apply (run_zoom_op_range s op H3)|].
    split; [exact H4|]. split; [exact H5 | exact H6].
  - pose proof (app_inv_add rng s i Hinv) as H. unfold state_after in H.
    destruct (add_random_circles rng s i) as [[s' msgs] i']. exact H.
  - pose proof (app_inv_mix rng s i Hinv) as H. unfold state_after in H.
    destruct (mix_circles rng s i) as [[s' msgs] i']. exact H.
  - cbn [fst]. apply app_inv_redraw, app_inv_circles; [exact Hinv | constructor].
  - cbn [fst]. unfold on_update_shape.
    destruct (Qleb w 0 || Qleb h 0) eqn:E; cbn [fst]; [exact Hinv|].
    apply orb_false_iff in E. rewrite !Qleb_gt in E.
    apply app_inv_redraw. destruct Hinv as (_ & _ & H3 & H4 & H5 & H6).
    repeat split; try assumption; apply E || apply H3.
  - cbn [fst]. destruct Hinv as (_ & _ & _ & H4 & H5 & _).
    repeat split; try assumption; try reflexivity; try discriminate. constructor.
  - cbn [fst]. apply app_inv_redraw. destruct Hinv as (H1 & H2 & H3 & _ & _ & H6).
    repeat split; try assumption; try apply H3;
      cbn [set_canvas canvas_w canvas_h]; lia.
  - cbn [fst]. apply app_inv_redraw. exact Hinv.
  - exact Hinv.
  - exact Hinv.
  - exact Hinv.
  - destruct (save_dxf_frame_facts s path) as (E1 & E2 & E3 & E4 & E5 & _).
    apply (app_inv_ext s); assumption.
Qed.

(** Whatever the user does, starting from the initial window, the
    rectangle has positive width and height, the zoom lies in
    [0.05, 10.0], the canvas is at least 1 px each way and every circle
    has a positive diameter; as a consequence the effective scale is
    positive. *)
Theorem reachable_invariant (rng : nat -> Q) (es : list event) (i : nat) :
  app_inv (fst (run_events rng es (init_app, i))) /\
  0 < scale_of (fst (run_events rng es (init_app, i))).
Proof.
  assert (Hinv : forall st, app_inv (fst st) -> app_inv (fst (run_events rng es st))).
  { unfold run_events. induction es as [|e es IH]; intros [s j] H; cbn [fold_left].
    - exact H.
    - apply IH. apply (app_inv_handle rng s j e H). }
  assert (H0 : app_inv init_app).
  { repeat split; try reflexivity; try discriminate. constructor. }
  pose proof (Hinv (init_app, i) H0) as H.
  split; [exact H|].
  destruct (scale_of_cases (fst (run_events rng es (init_app, i)))) as (b & Hb & ->).
  destruct H as (_ & _ & [Hz _] & _).
  apply Qmult_lt_0_compat; [exact Hb | lra].
Qed.

(** ** What is painted *)

(** A circle that keeps a clearance [ms >= 0] inside the rectangle is
    painted inside the painted rectangle: for a positive zoom, in both
    fit modes, the bounding box of its oval lies between the top-left and
    the bottom-right corner of the polygon. *)
Theorem redraw_oval_inside (s : app) (c : circle) (ms : Q) :
  0 < zoom_var s -> 0 <= ms -> in_box (rect s) ms c ->
  let tl := mm_to_canvas_px (x0_mm (rect s)) (y0_mm (rect s))
              (redraw_px_per_mm s) (x_offset_of s) (y_offset_of s) in
  let br := mm_to_canvas_px (x0_mm (rect s) + w_mm (rect s))
              (y0_mm (rect s) + h_mm (rect s))
              (redraw_px_per_mm s) (x_offset_of s) (y_offset_of s) in
  let '(x1, y1, x2, y2) := redraw_oval s c in
  fst tl <= x1 /\ x2 <= fst br /\ snd tl <= y1 /\ y2 <= snd br.
Proof.
  intros Hz Hms (H1 & H2 & H3 & H4).
  destruct (scale_positive_facts s Hz) as (Hpos & Epx & _).
  unfold redraw_oval, mm_to_canvas_px. rewrite Epx. cbn [fst snd].
  unfold radius in *.
  set (S := scale_of s) in *.
  set (xo := x_offset_of s). set (yo := y_offset_of s).
  assert (Ha : 0 <= (cx_mm c - d_mm c / 2 - x0_mm (rect s)) * S)
    by (apply Qmult_le_0_compat; lra).
  assert (Hb : 0 <= (x0_mm (rect s) + w_mm (rect s) - cx_mm c - d_mm c / 2) * S)
    by (apply Qmult_le_0_compat; lra).
  assert (Hc : 0 <= (cy_mm c - d_mm c / 2 - y0_mm (rect s)) * S)
    by (apply Qmult_le_0_compat; lra).
  assert (Hd : 0 <= (y0_mm (rect s) + h_mm (rect s) - cy_mm c - d_mm c / 2) * S)
    by (apply Qmult_le_0_compat; lra).
  repeat split; lra.
Qed.

Lemma redraw_oval_inside_witness :
  let tl := mm_to_canvas_px (x0_mm (rect keep_app)) (y0_mm (rect keep_app))
              (redraw_px_per_mm keep_app) (x_offset_of keep_app) (y_offset_of keep_app) in
  let br := mm_to_canvas_px (x0_mm (rect keep_app) + w_mm (rect keep_app))
              (y0_mm (rect keep_app) + h_mm (rect keep_app))
              (redraw_px_per_mm keep_app) (x_offset_of keep_app) (y_offset_of keep_app) in
  let '(x1, y1, x2, y2) := redraw_oval keep_app (mkCircle 100 100 100) in
  fst tl <= x1 /\ x2 <= fst br /\ snd tl <= y1 /\ y2 <= snd br.
Proof.
  apply (redraw_oval_inside keep_app (mkCircle 100 100 100) 20).
  - reflexivity.
  - discriminate.
  - repeat split; discriminate.
Defined.
